(** * bellevercarbon: the household carbon-mix script [plot.py]

    A shallow embedding of the data transformations of [plot.py]
    (cleaning of the smart-meter series, the join with the grid series,
    the weekly load-weighted carbon intensities, the overall averages and
    the per-source attribution of the home's imports), and the properties
    its specification states about them.

    Numbers.  The script computes on float64 columns.  The embedding keeps
    the special values of that arithmetic and idealises the rest:
    - a cell read from a CSV file is a finite decimal or is missing, so a
      column that comes from a file (and every product of two such
      columns) has type [cell = option Qc], [None] being NaN;
    - a quotient can also be infinite, so quotients and everything computed
      from them have type [fval], with the IEEE rules for NaN and the
      infinities (zero is unsigned: [x / 0] is [+inf] for [x > 0], and a
      zero that float64 signs negative, which ['.2f'] prints as [-0.00],
      is not told from the other);
    - finite values are exact rationals: rounding is not modelled, and an
      equality "within floating tolerance" is an equality here.

    Files.  The labels of a file are taken to be distinct where the script
    aligns two series by their labels.  [read_csv] gives a header-only
    file an index that holds no dates, and [resample] raises TypeError on
    a frame with such an index: the weekly tables below are those of the
    frames whose index holds dates.

    Time.  A timestamp is the integer pandas stores: nanoseconds since
    1970-01-01 00:00 (a Thursday), without time zone. *)

From Stdlib Require Import QArith Qcanon Qround ZArith Lia Lqa.
From stdpp Require Import base numbers list gmap strings pretty.

Local Open Scope Z_scope.

(** ** float64 values *)

Module Float.

(** A cell of a column read from a file: a finite value or NaN. *)
Abbreviation cell := (option Qc) (only parsing).

(** A float64 value in general. *)
Inductive fval : Type :=
  | Fin (q : Qc)
  | PInf
  | NInf
  | NaN.

Definition of_cell (c : cell) : fval :=
  match c with Some q => Fin q | None => NaN end.

Definition is_nan (v : fval) : bool :=
  match v with NaN => true | _ => false end.

Definition is_finite (v : fval) : bool :=
  match v with Fin _ => true | _ => false end.

(** [a * b] on cells: NaN when either side is NaN. *)
Definition cmul (a b : cell) : cell :=
  match a, b with
  | Some x, Some y => Some (x * y)%Qc
  | _, _ => None
  end.

(** The infinity of the sign of [q] ([q] is not zero where this is used). *)
Definition inf_of_sign (q : Qc) : fval :=
  if decide (0 < q)%Qc then PInf else NInf.

Definition fneg (v : fval) : fval :=
  match v with
  | Fin q => Fin (- q)%Qc
  | PInf => NInf
  | NInf => PInf
  | NaN => NaN
  end.

Definition fadd (a b : fval) : fval :=
  match a, b with
  | NaN, _ | _, NaN => NaN
  | Fin x, Fin y => Fin (x + y)%Qc
  | PInf, NInf | NInf, PInf => NaN
  | PInf, _ | _, PInf => PInf
  | NInf, _ | _, NInf => NInf
  end.

Definition fmul (a b : fval) : fval :=
  match a, b with
  | NaN, _ | _, NaN => NaN
  | Fin x, Fin y => Fin (x * y)%Qc
  | Fin x, PInf | PInf, Fin x =>
      if decide (x = 0%Qc) then NaN else inf_of_sign x
  | Fin x, NInf | NInf, Fin x =>
      if decide (x = 0%Qc) then NaN else fneg (inf_of_sign x)
  | PInf, PInf | NInf, NInf => PInf
  | PInf, NInf | NInf, PInf => NInf
  end.

(** [a / b]: a finite value over zero is an infinity of the sign of the
    numerator, and [0 / 0] is NaN; nothing raises. *)
Definition fdiv (a b : fval) : fval :=
  match a, b with
  | NaN, _ | _, NaN => NaN
  | Fin x, Fin y =>
      if decide (y = 0%Qc)
      then (if decide (x = 0%Qc) then NaN else inf_of_sign x)
      else Fin (x / y)%Qc
  | Fin _, (PInf | NInf) => Fin 0%Qc
  | PInf, Fin y => if decide (y < 0)%Qc then NInf else PInf
  | NInf, Fin y => if decide (y < 0)%Qc then PInf else NInf
  | (PInf | NInf), (PInf | NInf) => NaN
  end.

(** [Series.sum()] of a column of cells: NaN is skipped, and the sum of
    nothing is 0. *)
Definition nansum (l : list cell) : Qc :=
  foldr (λ c acc, match c with Some q => (q + acc)%Qc | None => acc end) 0%Qc l.

(** The same sum on a column that can hold infinities. *)
Definition nansum_f (l : list fval) : fval :=
  foldr (λ v acc, if is_nan v then acc else fadd v acc) (Fin 0%Qc) l.

(** The sum that does not skip NaN. *)
Definition fsum (l : list fval) : fval :=
  foldr fadd (Fin 0%Qc) l.

#[global] Instance fval_eq_dec : EqDecision fval.
Proof. solve_decision. Defined.

End Float.
Export Float.

(** ** The pandas operations the script calls *)

Module Pandas.

(** *** [Series.interpolate()] with its defaults

    [method='linear'] ignores the index and treats the rows as equally
    spaced, [limit_direction='forward'], no limit, no [limit_area].
    pandas collects the positions and values of the valid rows, calls
    [numpy.interp] at the positions of the missing rows, and then puts NaN
    back on the missing rows that precede the first valid one. *)

(** Positions and values of the valid rows of [y], the first row being at
    position [i]. *)
Fixpoint valid_points_from (i : Z) (y : list cell) : list (Z * Qc) :=
  match y with
  | [] => []
  | Some v :: tl => (i, v) :: valid_points_from (i + 1) tl
  | None :: tl => valid_points_from (i + 1) tl
  end.

Definition valid_points (y : list cell) : list (Z * Qc) :=
  valid_points_from 0 y.

(** [numpy.interp] to the right of the point [(x0, y0)], where [x0 <= x]:
    beyond the last point the last ordinate is returned, on a point its
    ordinate, and inside a segment
    [slope * (x - xp[j]) + fp[j]] with
    [slope = (fp[j+1] - fp[j]) / (xp[j+1] - xp[j])]. *)
Fixpoint np_interp_from (x x0 : Z) (y0 : Qc) (rest : list (Z * Qc)) : Qc :=
  match rest with
  | [] => y0
  | (x1, y1) :: rest' =>
      if x <? x1
      then (if x =? x0 then y0
            else ((y1 - y0) / Qc_of_Z (x1 - x0) * Qc_of_Z (x - x0) + y0)%Qc)
      else np_interp_from x x1 y1 rest'
  end.

(** [numpy.interp x xp fp] for the points [pts], ascending in [xp]; to the
    left of the first point the first ordinate is returned. *)
Definition np_interp (x : Z) (pts : list (Z * Qc)) : cell :=
  match pts with
  | [] => None
  | (x0, y0) :: rest =>
      Some (if x <? x0 then y0 else np_interp_from x x0 y0 rest)
  end.

Definition interpolate (y : list cell) : list cell :=
  let pts := valid_points y in
  match pts with
  | [] => y
  | (first_valid_index, _) :: _ =>
      imap (λ i c,
              match c with
              | Some v => Some v
              | None =>
                  if Z.of_nat i <? first_valid_index then None
                  else np_interp (Z.of_nat i) pts
              end) y
  end.

(** *** [DataFrame.resample('W')]

    ['W'] is the weekly frequency anchored on Sunday, with bins closed and
    labelled on the right: pandas puts the bin edges at the last nanosecond
    of each Sunday, so a bin holds the rows from a Monday 00:00 to the end
    of the following Sunday, and its label is that Sunday at 00:00.  The
    result has one row for every week from the week of the smallest
    timestamp to the week of the largest, the empty ones included. *)

Definition ns_per_day : Z := 86400 * 1000000000.

Definition day_of (t : Z) : Z := t / ns_per_day.

(** Number of the Monday-to-Sunday week that holds [t]; week 0 is the one
    of 1970-01-01, from Monday 1969-12-29 to Sunday 1970-01-04. *)
Definition week_of (t : Z) : Z := (day_of t + 3) / 7.

(** The label of week [k]: its Sunday at 00:00. *)
Definition week_label (k : Z) : Z := (7 * k + 3) * ns_per_day.

Definition in_week {A : Type} (index : A → Z) (k : Z) (rows : list A) : list A :=
  filter (λ r, week_of (index r) = k) rows.

Definition resample_W {A B : Type} (index : A → Z) (agg : list A → B)
    (rows : list A) : list (Z * B) :=
  match rows with
  | [] => []
  | r :: rs =>
      let first := foldr Z.min (index r) (index <$> rs) in
      let last := foldr Z.max (index r) (index <$> rs) in
      (λ k, (week_label k, agg (in_week index k rows)))
        <$> seqZ (week_of first) (week_of last - week_of first + 1)
  end.

(** *** Label lookup in a series with unique labels *)

Fixpoint loc {V : Type} (t : Z) (s : list (Z * V)) : option V :=
  match s with
  | [] => None
  | (t', v) :: s' => if decide (t' = t) then Some v else loc t s'
  end.

(** *** [format(x, '.2f')] *)

(** Nearest integer to [x >= 0], ties to even. *)
Definition round_half_even (x : Qc) : Z :=
  let n := Qfloor x in
  let r := (x - Qc_of_Z n)%Qc in
  if decide (r < Q2Qc (1 # 2))%Qc then n
  else if decide (Q2Qc (1 # 2) < r)%Qc then n + 1
  else if Z.even n then n else n + 1.

Definition hundredths (x : Qc) : Z :=
  round_half_even ((if decide (x < 0)%Qc then - x else x) * Qc_of_Z 100)%Qc.

Definition format_2f (v : fval) : string :=
  match v with
  | NaN => "nan"
  | PInf => "inf"
  | NInf => "-inf"
  | Fin x =>
      let h := hundredths x in
      (if decide (x < 0)%Qc then "-" else "")
        +:+ pretty (h / 100) +:+ "."
        +:+ pretty (h / 10 mod 10) +:+ pretty (h mod 10)
  end.

End Pandas.
Export Pandas.

(** ** The script *)

Module Plot.

(** [GENERATION_MIX_COLUMNS] *)
Inductive source : Type :=
  | GAS | COAL | NUCLEAR | WIND | HYDRO | IMPORTS | BIOMASS | OTHER | SOLAR | STORAGE.

#[global] Instance source_eq_dec : EqDecision source.
Proof. solve_decision. Defined.

Definition GENERATION_MIX_COLUMNS : list source :=
  [GAS; COAL; NUCLEAR; WIND; HYDRO; IMPORTS; BIOMASS; OTHER; SOLAR; STORAGE].

(** A series: the rows of a file in file order, each an index label and a
    value. [open_glow_csv] returns the [kWh] column of [smart_meter.csv]
    indexed by [dateTime]. *)
Abbreviation series V := (list (Z * V)) (only parsing).

(** A row of [grid.csv], indexed by [DATETIME]. *)
Record grid_row : Type := {
  DATETIME : Z;
  CARBON_INTENSITY : cell;
  GENERATION : cell;
  mix : source → cell
}.

(** [open_glow_csv] and [open_grid] read a file; their argument here is the
    file as [read_csv] parses it, the rows in file order. *)
Definition open_glow_csv (fp : series cell) : series cell := fp.

Definition open_grid (grid_csv : list grid_row) : list grid_row := grid_csv.

(** [df.loc[df['imports'] > 15, 'imports'] = pd.NA] *)
Definition mask_errors (y : list cell) : list cell :=
  (λ c, match c with
        | Some v => if decide (Qc_of_Z 15 < v)%Qc then None else Some v
        | None => None
        end) <$> y.

Definition open_smart_meter (smart_meter : series cell) : series cell :=
  let df := open_glow_csv smart_meter in
  zip df.*1 (interpolate (mask_errors df.*2)).

(** A row of [df] in [carbon_mix], after the join and the two products. *)
Record row : Type := {
  ts : Z;
  imports : cell;
  carbon_intensity : cell;
  grid_generation : cell;
  home_carbon : cell;
  grid_carbon : cell
}.

#[global] Instance row_eq_dec : EqDecision row.
Proof. solve_decision. Defined.

(** [df.join(grid[[CARBON_INTENSITY_COL, GRID_GENERATION_COL]], how='inner')]:
    every pair of a row of [df] and a row of [grid] with the same label. *)
Definition join_inner (df : series cell) (grid : list grid_row)
    : list (Z * cell * grid_row) :=
  p ← df; g ← filter (λ g, DATETIME g = p.1) grid; [(p.1, p.2, g)].

Definition with_carbon (j : Z * cell * grid_row) : row :=
  let '(t, x, g) := j in
  {| ts := t;
     imports := x;
     carbon_intensity := CARBON_INTENSITY g;
     grid_generation := GENERATION g;
     home_carbon := cmul x (CARBON_INTENSITY g);
     grid_carbon := cmul (GENERATION g) (CARBON_INTENSITY g) |}.

(** [df] of [carbon_mix] before the resampling. *)
Definition joined (smart_meter : series cell) (grid : list grid_row) : list row :=
  with_carbon <$> join_inner (open_smart_meter smart_meter) (open_grid grid).

(** A row of [df_weekly]. *)
Record weekly_row : Type := {
  w_imports : Qc;
  w_carbon_intensity : Qc;
  w_grid_generation : Qc;
  w_home_carbon : Qc;
  w_grid_carbon : Qc;
  home_carbon_intensity : fval;
  grid_carbon_intensity : fval
}.

#[global] Instance weekly_row_eq_dec : EqDecision weekly_row.
Proof. solve_decision. Defined.

Definition weekly_sums (rows : list row) : weekly_row :=
  let si := nansum (imports <$> rows) in
  let sg := nansum (grid_generation <$> rows) in
  let sh := nansum (home_carbon <$> rows) in
  let sc := nansum (grid_carbon <$> rows) in
  {| w_imports := si;
     w_carbon_intensity := nansum (carbon_intensity <$> rows);
     w_grid_generation := sg;
     w_home_carbon := sh;
     w_grid_carbon := sc;
     home_carbon_intensity := fdiv (Fin sh) (Fin si);
     grid_carbon_intensity := fdiv (Fin sc) (Fin sg) |}.

(** What [carbon_mix] produces from two files with a row at least: the
    weekly table it plots (the two intensity columns against the index),
    the two averages and the lines it prints.  (With a header-only file
    the index of the joined frame holds no dates, and [resample] raises
    before anything is printed.) *)
Record carbon_report : Type := {
  df_weekly : list (Z * weekly_row);
  home_avg : fval;
  grid_avg : fval;
  stdout : list string
}.

Definition carbon_mix (smart_meter : series cell) (grid : list grid_row)
    : carbon_report :=
  let df := joined smart_meter grid in
  let ha := fdiv (Fin (nansum (home_carbon <$> df))) (Fin (nansum (imports <$> df))) in
  let ga := fdiv (Fin (nansum (grid_carbon <$> df)))
                 (Fin (nansum (grid_generation <$> df))) in
  {| df_weekly := resample_W ts weekly_sums df;
     home_avg := ha;
     grid_avg := ga;
     stdout := [ "Home Average Carbon Intensity: " +:+ format_2f ha +:+ " g/kWh";
                 "Grid Average Carbon Intensity: " +:+ format_2f ga +:+ " g/kWh" ] |}.

(** [grid[GENERATION_MIX_COLUMNS].sum(axis=1)]: the total of a row across
    the ten sources. *)
Definition source_total (g : grid_row) : Qc :=
  nansum (mix g <$> GENERATION_MIX_COLUMNS).

(** A row of [grid_mix]: every source column divided by the row's total. *)
Definition grid_mix_row (g : grid_row) (s : source) : fval :=
  fdiv (of_cell (mix g s)) (Fin (source_total g)).

(** The column [grid_mix[source]], indexed as [grid] is. *)
Definition grid_mix (grid : list grid_row) (s : source) : series fval :=
  (λ g, (DATETIME g, grid_mix_row g s)) <$> grid.

(** [a * b] on two series with unique labels: the operands are aligned on
    the union of their labels, and a label that one of them lacks gets
    NaN.  (The order of the result is not observed: it is reindexed.) *)
Definition series_mul (a : series cell) (b : series fval) : series fval :=
  (λ t, (t, fmul (of_cell (default None (loc t a))) (default NaN (loc t b))))
    <$> (a.*1 ++ filter (λ t, t ∉ a.*1) b.*1).

(** [df[source] = value]: the value is reindexed on the labels of [df]. *)
Definition reindex (value : series fval) (index : list Z) : list fval :=
  (λ t, default NaN (loc t value)) <$> index.

(** A row of [df] in [calculate_home_source_usage] after the loop. *)
Record usage_row : Type := {
  u_ts : Z;
  u_imports : cell;
  attributed : source → fval
}.

(** [df[source] = value] on a frame that has no row yet: the frame takes the
    labels of the value, and its other columns are NaN on them; a frame
    with rows keeps its own. *)
Definition ensure_valid_index (df : series cell) (value : series fval)
    : series cell :=
  match df with
  | [] => (λ t, (t, None)) <$> value.*1
  | _ :: _ => df
  end.

(** [df] after the loop over the sources, of which [GAS] comes first. *)
Definition attribute (df : series cell) (grid : list grid_row) : list usage_row :=
  let df := ensure_valid_index df (series_mul df (grid_mix grid GAS)) in
  let column s := reindex (series_mul df (grid_mix grid s)) df.*1 in
  imap (λ i p, {| u_ts := p.1;
                  u_imports := p.2;
                  attributed := λ s, default NaN (column s !! i) |}) df.

Definition weekly_usage_sums (rows : list usage_row) (s : source) : fval :=
  nansum_f ((λ r, attributed r s) <$> rows).

(** The table has one row a week and one column a source; it is made of a
    frame with a row at least, its own or one of the grid's. *)
Definition calculate_home_source_usage (smart_meter : series cell)
    (grid : list grid_row) : list (Z * (source → fval)) :=
  resample_W u_ts weekly_usage_sums
    (attribute (open_smart_meter smart_meter) (open_grid grid)).

(** The columns of the chart of [plot_stacked_area], from the bottom of the
    stack to the top. *)
Definition stacked_columns : list source :=
  [NUCLEAR; GAS; WIND; IMPORTS; SOLAR; HYDRO; BIOMASS; OTHER; STORAGE; COAL].

(** [plot_stacked_area] selects the columns of the table in the order of
    the chart, [weekly_usage[[...]]], and draws the result with
    [plot.area()]; what is returned here is the table that is drawn, each
    week with its values from the bottom of the stack to the top. *)
Definition plot_stacked_area (weekly_usage : list (Z * (source → fval)))
    : list (Z * list fval) :=
  (λ p, (p.1, p.2 <$> stacked_columns)) <$> weekly_usage.

Definition energy_sources (smart_meter : series cell) (grid : list grid_row)
    : list (Z * list fval) :=
  plot_stacked_area (calculate_home_source_usage smart_meter grid).

End Plot.
Export Plot.

(** ** Notions of the specification *)

Module Spec.

(** The load-weighted average intensity of some rows, the load being the
    column [energy]: the sum of energy times intensity over the sum of
    energy. *)
Definition weighted (energy : row → cell) (rows : list row) : fval :=
  fdiv (Fin (nansum ((λ r, cmul (energy r) (carbon_intensity r)) <$> rows)))
       (Fin (nansum (energy <$> rows))).

(** Week [k] is one of the weeks from that of the first row to that of the
    last. *)
Definition spanned {A : Type} (index : A → Z) (rows : list A) (k : Z) : Prop :=
  ∃ r1 r2, r1 ∈ rows ∧ r2 ∈ rows ∧ week_of (index r1) ≤ k ≤ week_of (index r2).




(** Linear interpolation between the points [(ta, ya)] and [(tb, yb)],
    read at [t]. *)
Definition lerp (ta : Z) (ya : Qc) (tb : Z) (yb : Qc) (t : Z) : Qc :=
  ((yb - ya) / Qc_of_Z (tb - ta) * Qc_of_Z (t - ta) + ya)%Qc.

(** Row [i] of the column [y] is missing. *)
Definition missing_at (y : list cell) (i : nat) : Prop := y !! i = Some None.

(** Rows [a] and [b] hold the valid values nearest to row [i] on either
    side. *)
Definition valid_neighbours (y : list cell) (a i b : nat) (ya yb : Qc) : Prop :=
  (a < i < b)%nat ∧ y !! a = Some (Some ya) ∧ y !! b = Some (Some yb) ∧
  ∀ k, (a < k < b)%nat → missing_at y k.

(** The string [s] is the value [v] to two decimal places: an optional
    sign, the integer part, a point and two digits, which together are the
    number of hundredths nearest to the magnitude of [v]; the values that
    are not finite are printed by name.  A negative value has the sign and
    a positive one has not; a zero is printed with it or without. *)
Definition two_decimals (v : fval) (s : string) : Prop :=
  match v with
  | NaN => s = "nan"
  | PInf => s = "inf"
  | NInf => s = "-inf"
  | Fin x =>
      ∃ (sign : string) (h d1 d2 : Z),
        (sign = "-" ∨ sign = "") ∧
        ((x < 0)%Qc → sign = "-") ∧ ((0 < x)%Qc → sign = "") ∧
        (0 ≤ h)%Z ∧ (0 ≤ d1 ≤ 9)%Z ∧ (0 ≤ d2 ≤ 9)%Z ∧
        h = (100 * (h / 100) + 10 * d1 + d2)%Z ∧
        s = sign +:+ pretty (h / 100) +:+ "." +:+ pretty d1 +:+ pretty d2 ∧
        String.length (pretty d1) = 1%nat ∧ String.length (pretty d2) = 1%nat ∧
        (Qc_of_Z h - Q2Qc (1 # 2)
           ≤ (if decide (x < 0) then - x else x) * Qc_of_Z 100)%Qc ∧
        ((if decide (x < 0) then - x else x) * Qc_of_Z 100
           ≤ Qc_of_Z h + Q2Qc (1 # 2))%Qc
  end.

(** The total of a column over the whole dataset: its numbers added one
    after the other from the first row on, a missing one adding nothing. *)
Definition dataset_total (column : list cell) : Qc :=
  foldl (λ acc c, match c with Some x => (acc + x)%Qc | None => acc end)
        0%Qc column.

(** The carbon of a row: its energy times the intensity, where both are
    numbers. *)
Definition carbon_of (energy intensity : cell) : cell :=
  x ← energy; c ← intensity; Some (x * c)%Qc.

(** What a row of the home series is attributed of a source: its imports
    times the fraction of the source in the grid row of its timestamp, and
    NaN when the grid has no such row. *)
Definition attributed_to (grid : list grid_row) (s : source) (p : Z * cell) : fval :=
  match head (filter (λ g, DATETIME g = p.1) grid) with
  | Some g => fmul (of_cell p.2) (grid_mix_row g s)
  | None => NaN
  end.

(** The timestamps present in both series. *)
Definition common_labels (home : series cell) (grid : list grid_row) : gset Z :=
  list_to_set home.*1 ∩ list_to_set (DATETIME <$> grid).

(** The rows of the home series of week [k] whose timestamp the grid series
    has too, each with its grid row. *)
Definition common_rows (df : series cell) (grid : list grid_row) (k : Z)
    : list (cell * grid_row) :=
  omap (λ p, (λ g, (p.2, g)) <$> head (filter (λ g, DATETIME g = p.1) grid))
       (in_week fst k df).

(** The rows are evenly spaced in time: row [j] is at [t0 + j * step]. *)
Definition evenly_spaced (index : list Z) (t0 step : Z) : Prop :=
  ∀ j t, index !! j = Some t → t = t0 + Z.of_nat j * step.

(** Row [i] of the cleaned series holds the value read at its own
    timestamp on the line through its nearest valid neighbours, each taken
    at its timestamp. *)
Definition time_interpolated (raw : series cell) (i : nat) (c : cell) : Prop :=
  ∃ a b ta tb t ya yb,
    valid_neighbours (mask_errors raw.*2) a i b ya yb ∧
    raw.*1 !! a = Some ta ∧ raw.*1 !! b = Some tb ∧ raw.*1 !! i = Some t ∧
    c = Some (lerp ta ya tb yb t).

(** The grid row [g] with its ten source columns in another unit, [k] of
    which make one of the old. *)
Definition scale_mix (k : Qc) (g : grid_row) : grid_row :=
  {| DATETIME := DATETIME g;
     CARBON_INTENSITY := CARBON_INTENSITY g;
     GENERATION := GENERATION g;
     mix := λ s, (λ v, k * v)%Qc <$> mix g s |}.

(** The labels of a weekly table are seven days apart, in increasing
    order. *)
Definition weekly_spaced (labels : list Z) : Prop :=
  ∀ i l l', labels !! i = Some l → labels !! S i = Some l' →
            l' = l + 7 * ns_per_day.



End Spec.
Export Spec.

(** ** Small inputs *)

Module Fixtures.

Definition minutes (n : Z) : Z := n * 60 * 1000000000.
Definition days (n : Z) : Z := n * ns_per_day.
Definition num (n : Z) : cell := Some (Qc_of_Z n).

(** A reading above 15 on the first row. *)
Definition raw_leading : series cell :=
  [(minutes 0, num 20); (minutes 30, num 1); (minutes 60, num 2)].

(** A reading above 15 between two valid ones, 30 minutes after the first
    and 90 minutes before the second. *)
Definition raw_uneven : series cell :=
  [(minutes 0, num 0); (minutes 30, num 20); (minutes 120, num 3)].

(** A reading above 15 on the last row. *)
Definition raw_trailing : series cell :=
  [(minutes 0, num 1); (minutes 30, num 2); (minutes 60, num 20)].

(** Two readings above 15 between two valid ones, half an hour apart. *)
Definition raw_inner : series cell :=
  [(minutes 0, num 1); (minutes 30, num 16); (minutes 60, None);
   (minutes 90, num 4)].

Definition raw_negative : series cell :=
  [(minutes 0, num (-1)); (minutes 30, num 2)].

(** A grid row with no generation mix. *)
Definition grid_at (t : Z) (intensity generation : Z) : grid_row :=
  {| DATETIME := t;
     CARBON_INTENSITY := num intensity;
     GENERATION := num generation;
     mix := λ _, None |}.

(** Tuesday 6, Wednesday 7 and Thursday 8 January 1970, in week 1. *)
Definition home_121 : series cell :=
  [(days 5, num 1); (days 6, num 2); (days 7, num 1)].
Definition grid_121 : list grid_row :=
  [grid_at (days 5) 10 1; grid_at (days 6) 20 2; grid_at (days 7) 30 1].

(** The same days with the larger loads at the larger intensity. *)
Definition home_123 : series cell :=
  [(days 5, num 1); (days 6, num 2); (days 7, num 3)].
Definition grid_123 : list grid_row :=
  [grid_at (days 5) 10 1; grid_at (days 6) 20 2; grid_at (days 7) 30 3].

(** The same days at a constant intensity. *)
Definition grid_const : list grid_row :=
  [grid_at (days 5) 5 1; grid_at (days 6) 5 2; grid_at (days 7) 5 1].

(** An import and an export of the same size in one week. *)
Definition home_cancel : series cell :=
  [(days 5, num 1); (days 6, num (-1))].
Definition grid_cancel : list grid_row :=
  [grid_at (days 5) 100 1; grid_at (days 6) 200 1].

(** Two days without imports. *)
Definition home_idle : series cell :=
  [(days 5, num 0); (days 6, num 0)].

(** Grid rows for the last two of these days and the day after. *)
Definition grid_shifted : list grid_row :=
  [grid_at (days 6) 20 2; grid_at (days 7) 30 1; grid_at (days 8) 40 1].

(** A grid row with gas, wind and nothing from the other sources. *)
Definition mix_at (t : Z) (gas wind : Z) : grid_row :=
  {| DATETIME := t;
     CARBON_INTENSITY := num 100;
     GENERATION := num (gas + wind);
     mix := λ s, match s with GAS => num gas | WIND => num wind | _ => num 0 end |}.

(** Two days of imports, and a grid series that has the first only. *)
Definition home_two : series cell := [(days 5, num 1); (days 6, num 2)].
Definition grid_one : list grid_row := [mix_at (days 5) 1 3].
Definition grid_two : list grid_row := [mix_at (days 5) 1 3; mix_at (days 6) 2 2].

(** Imports in week 1 and in week 3, the grid having the first only. *)
Definition home_far : series cell := [(days 5, num 1); (days 20, num 2)].


(** A series with nothing to clean but its first row, which is missing. *)
Definition raw_clean : series cell :=
  [(minutes 0, None); (minutes 30, num 1); (minutes 60, num 15)].

(** A grid series that starts after the home series has ended. *)
Definition grid_later : list grid_row :=
  [grid_at (days 8) 40 1; grid_at (days 9) 50 1].

(** The rows of [grid_two] in the other order. *)
Definition grid_two_reversed : list grid_row :=
  [mix_at (days 6) 2 2; mix_at (days 5) 1 3].

End Fixtures.
Export Fixtures.

(** ** Facts on the arithmetic *)

(** Closed (in)equalities are settled by evaluating their decision
    procedure. *)
Ltac by_compute := apply (bool_decide_unpack _); vm_compute; exact I.

(** Order goals on [Qc] are sent to [Q], where [lra] works. *)
Ltac qc_to_q :=
  unfold Qcle, Qclt, Qcminus, Qcplus, Qcopp, Qcmult, Q2Qc in *; simpl this in *;
  rewrite ?Qred_correct in *; rewrite ?inject_Z_plus in *;
  change (inject_Z 1) with 1%Q in *.

Section arithmetic.
Local Open Scope Qc_scope.

Lemma Qc_of_Z_pos (n : Z) : (0 < n)%Z → 0 < Qc_of_Z n.
Proof. intros H. rewrite <- Z2Qc_inj_0. by apply (proj1 (Z2Qc_inj_lt 0 n)). Qed.

Lemma Qc_of_Z_nonneg (n : Z) : (0 ≤ n)%Z → 0 ≤ Qc_of_Z n.
Proof. intros H. rewrite <- Z2Qc_inj_0. by apply (proj1 (Z2Qc_inj_le 0 n)). Qed.

Lemma Qc_of_Z_neq_0 (n : Z) : n ≠ 0%Z → Qc_of_Z n ≠ 0.
Proof. intros H E. rewrite <- Z2Qc_inj_0 in E. by apply Z2Qc_inj in E. Qed.

(** A ratio of two integers [0 <= e <= d], [0 < d], lies in [[0, 1]]. *)
Lemma ratio_unit (e d : Z) :
  (0 ≤ e ≤ d)%Z → (0 < d)%Z →
  0 ≤ Qc_of_Z e / Qc_of_Z d ∧ Qc_of_Z e / Qc_of_Z d ≤ 1.
Proof.
  intros [He Hed] Hd.
  pose proof (Qc_of_Z_pos d Hd) as Hdq.
  pose proof (Qcinv_pos _ Hdq) as Hinv.
  split.
  - apply Qcmult_nonneg_nonneg; [by apply Qc_of_Z_nonneg | exact (Qclt_le_weak _ _ Hinv)].
  - unfold Qcdiv. rewrite <- (Qcmult_inv_r (Qc_of_Z d)).
    + apply Qcmult_le_mono_nonneg_r;
        [exact (Qclt_le_weak _ _ Hinv) | exact (proj1 (Z2Qc_inj_le e d) Hed)].
    + intros E. rewrite E in Hdq. by apply (irreflexivity Qclt 0).
Qed.

Lemma Qcle_0_minus (x y : Qc) : x ≤ y → 0 ≤ y - x.
Proof. intros H. unfold Qcminus. exact (proj1 (Qcle_minus_iff x y) H). Qed.

(** A point of a segment is not above a bound of its two ends. *)
Lemma segment_le (y0 y1 t B : Qc) :
  0 ≤ t → t ≤ 1 → y0 ≤ B → y1 ≤ B → (y1 - y0) * t + y0 ≤ B.
Proof.
  intros Ht0 Ht1 H0 H1. apply (proj2 (Qcle_minus_iff _ _)).
  replace (B + - ((y1 - y0) * t + y0))
    with ((B - y0) * (1 - t) + (B - y1) * t) by ring.
  apply Qcplus_nonneg_nonneg; apply Qcmult_nonneg_nonneg;
    try done; by apply Qcle_0_minus.
Qed.

(** Nor below one. *)
Lemma segment_ge (y0 y1 t B : Qc) :
  0 ≤ t → t ≤ 1 → B ≤ y0 → B ≤ y1 → B ≤ (y1 - y0) * t + y0.
Proof.
  intros Ht0 Ht1 H0 H1. apply (proj2 (Qcle_minus_iff _ _)).
  replace ((y1 - y0) * t + y0 + - B)
    with ((y0 - B) * (1 - t) + (y1 - B) * t) by ring.
  apply Qcplus_nonneg_nonneg; apply Qcmult_nonneg_nonneg;
    try done; by apply Qcle_0_minus.
Qed.

Lemma slope_form (y0 y1 : Qc) (d e : Z) :
  (y1 - y0) / Qc_of_Z d * Qc_of_Z e = (y1 - y0) * (Qc_of_Z e / Qc_of_Z d).
Proof. unfold Qcdiv. ring. Qed.

(** A line read on evenly spaced abscissas is the line read on their
    numbers. *)
Lemma lerp_scale (t0 step a b i : Z) (ya yb : Qc) :
  step ≠ 0%Z → a ≠ b →
  lerp (t0 + a * step) ya (t0 + b * step) yb (t0 + i * step) = lerp a ya b yb i.
Proof.
  intros Hs Hab. unfold lerp.
  replace (t0 + b * step - (t0 + a * step))%Z with ((b - a) * step)%Z by lia.
  replace (t0 + i * step - (t0 + a * step))%Z with ((i - a) * step)%Z by lia.
  rewrite !Z2Qc_inj_mul.
  pose proof (Qc_of_Z_neq_0 step Hs).
  assert (Qc_of_Z (b - a) ≠ 0) by (apply Qc_of_Z_neq_0; lia).
  field. by split.
Qed.

End arithmetic.

(** ** [interpolate] *)

Section interpolation.
Local Open Scope Z_scope.
Implicit Types (l : list cell) (pts rest : list (Z * Qc)).

Lemma valid_points_from_app i l1 l2 :
  valid_points_from i (l1 ++ l2) =
  valid_points_from i l1 ++ valid_points_from (i + Z.of_nat (length l1)) l2.
Proof.
  revert i. induction l1 as [|[v|] l1 IH]; intros i; simpl.
  - f_equal. lia.
  - rewrite IH. do 3 f_equal. lia.
  - rewrite IH. do 2 f_equal. lia.
Qed.

Lemma valid_points_from_missing i l :
  (∀ c, c ∈ l → c = None) → valid_points_from i l = [].
Proof.
  revert i. induction l as [|c l IH]; intros i H; [done|].
  rewrite (H c) by left. simpl. apply IH. intros c' Hc'. apply H. by right.
Qed.

Lemma valid_points_from_lookup i l x v :
  (x, v) ∈ valid_points_from i l →
  i ≤ x ∧ l !! Z.to_nat (x - i) = Some (Some v).
Proof.
  revert i. induction l as [|[w|] l IH]; intros i; simpl.
  - by intros ?%elem_of_nil.
  - intros [E|H]%elem_of_cons.
    + injection E as -> ->. split; [lia|]. by rewrite Z.sub_diag.
    + destruct (IH _ H) as [Hle Hl]. split; [lia|].
      replace (Z.to_nat (x - i)) with (S (Z.to_nat (x - (i + 1)))) by lia. done.
  - intros H. destruct (IH _ H) as [Hle Hl]. split; [lia|].
    replace (Z.to_nat (x - i)) with (S (Z.to_nat (x - (i + 1)))) by lia. done.
Qed.

Lemma valid_points_from_lt i l p :
  p ∈ valid_points_from i l → i ≤ p.1 < i + Z.of_nat (length l).
Proof.
  destruct p as [x v]. intros [Hle Hl]%valid_points_from_lookup.
  apply lookup_lt_Some in Hl. simpl. lia.
Qed.

Lemma valid_points_from_value i l p :
  p ∈ valid_points_from i l → Some p.2 ∈ l.
Proof.
  destruct p as [x v]. intros [_ Hl]%valid_points_from_lookup.
  simpl. by eapply list_elem_of_lookup_2.
Qed.

(** The walk of [numpy.interp] passes the points that are not to the right
    of [x]. *)
Lemma np_interp_from_skip x x0 y0 pts a ya rest :
  (∀ p, p ∈ pts → p.1 ≤ x) → a ≤ x →
  np_interp_from x x0 y0 (pts ++ (a, ya) :: rest) = np_interp_from x a ya rest.
Proof.
  revert x0 y0. induction pts as [|[x1 y1] pts IH]; intros x0 y0 Hpts Ha; simpl.
  - by rewrite (proj2 (Z.ltb_ge x a)).
  - rewrite (proj2 (Z.ltb_ge x x1)) by (apply (Hpts (x1, y1)); left).
    apply IH; [|done]. intros p Hp. apply Hpts. by right.
Qed.

Lemma np_interp_skip x pts a ya rest :
  (∀ p, p ∈ pts → p.1 ≤ x) → a ≤ x →
  np_interp x (pts ++ (a, ya) :: rest) = Some (np_interp_from x a ya rest).
Proof.
  intros Hpts Ha. destruct pts as [|[x0 y0] pts]; simpl.
  - by rewrite (proj2 (Z.ltb_ge x a)).
  - rewrite (proj2 (Z.ltb_ge x x0)) by (apply (Hpts (x0, y0)); left).
    f_equal. apply np_interp_from_skip; [|done]. intros p Hp. apply Hpts. by right.
Qed.

Lemma length_interpolate (y : list cell) : length (interpolate y) = length y.
Proof.
  unfold interpolate. destruct (valid_points y) as [|[f ?] ?]; [done|].
  apply length_imap.
Qed.

(** A valid row keeps its value. *)
Lemma interpolate_valid (y : list cell) i v :
  y !! i = Some (Some v) → interpolate y !! i = Some (Some v).
Proof.
  intros H. unfold interpolate. destruct (valid_points y) as [|[f ?] ?]; [done|].
  by rewrite list_lookup_imap, H.
Qed.

(** The valid points of a column, split at a valid row. *)
Lemma valid_points_split (y : list cell) a ya :
  y !! a = Some (Some ya) →
  valid_points y =
    valid_points_from 0 (take a y) ++
    (Z.of_nat a, ya) :: valid_points_from (Z.of_nat a + 1) (drop (S a) y).
Proof.
  intros H. unfold valid_points.
  rewrite <- (take_drop_middle y a (Some ya) H) at 1.
  rewrite valid_points_from_app. simpl.
  pose proof (lookup_lt_Some _ _ _ H).
  rewrite length_take, Nat.min_l by lia. done.
Qed.

(** A missing row that follows a valid one gets what [numpy.interp] finds
    walking on from that valid row. *)
Lemma interpolate_after_valid (y : list cell) a ya i :
  y !! a = Some (Some ya) → (a < i)%nat → y !! i = Some None →
  interpolate y !! i =
    Some (Some (np_interp_from (Z.of_nat i) (Z.of_nat a) ya
                  (valid_points_from (Z.of_nat a + 1) (drop (S a) y)))).
Proof.
  intros Ha Hai Hi. unfold interpolate.
  pose proof (valid_points_split y a ya Ha) as Hsplit.
  assert (Hpre : ∀ p, p ∈ valid_points_from 0 (take a y) → p.1 < Z.of_nat a).
  { intros p Hp%valid_points_from_lt. rewrite length_take in Hp. lia. }
  destruct (valid_points y) as [|[f w] pts] eqn:Hvp.
  { by destruct (valid_points_from 0 (take a y)). }
  assert (np_interp (Z.of_nat i) ((f, w) :: pts) =
          Some (np_interp_from (Z.of_nat i) (Z.of_nat a) ya
                  (valid_points_from (Z.of_nat a + 1) (drop (S a) y)))) as Hnp.
  { rewrite Hsplit. apply np_interp_skip; [|lia].
    intros p Hp. specialize (Hpre p Hp). lia. }
  assert (f ≤ Z.of_nat a) as Hf.
  { destruct (valid_points_from 0 (take a y)) as [|p ps] eqn:Hps.
    - injection Hsplit as -> _. lia.
    - injection Hsplit as <- _. specialize (Hpre (f, w)). simpl in Hpre.
      apply Z.lt_le_incl, Hpre. left. }
  rewrite list_lookup_imap, Hi. simpl in *.
  rewrite (proj2 (Z.ltb_ge (Z.of_nat i) f)) in Hnp |- * by lia.
  by rewrite Hnp.
Qed.

(** The three cases of a missing row. *)
Lemma interpolate_leading (y : list cell) i :
  y !! i = Some None →
  (∀ a v, (a < i)%nat → y !! a ≠ Some (Some v)) →
  interpolate y !! i = Some None.
Proof.
  intros Hi Hno. unfold interpolate.
  destruct (valid_points y) as [|[f w] pts] eqn:Hvp; [done|].
  rewrite list_lookup_imap, Hi. simpl.
  assert ((f, w) ∈ valid_points_from 0 y) as Hin.
  { fold (valid_points y). rewrite Hvp. left. }
  apply valid_points_from_lookup in Hin as [Hf Hl]. rewrite Z.sub_0_r in Hl.
  destruct (decide (Z.to_nat f < i)%nat) as [Hlt|Hge].
  { by destruct (Hno _ _ Hlt Hl). }
  assert (Z.to_nat f ≠ i) by (intros <-; congruence).
  by rewrite (proj2 (Z.ltb_lt (Z.of_nat i) f)) by lia.
Qed.

Lemma interpolate_trailing (y : list cell) a ya i :
  y !! a = Some (Some ya) → (a < i)%nat → y !! i = Some None →
  (∀ k v, (a < k)%nat → y !! k ≠ Some (Some v)) →
  interpolate y !! i = Some (Some ya).
Proof.
  intros Ha Hai Hi Hno.
  rewrite (interpolate_after_valid y a ya i) by done.
  rewrite valid_points_from_missing; [done|].
  intros [v|] [k Hk]%list_elem_of_lookup; [|done].
  rewrite lookup_drop in Hk. destruct (Hno (S a + k)%nat v); [lia|done].
Qed.

Lemma interpolate_between (y : list cell) a i b ya yb :
  valid_neighbours y a i b ya yb →
  interpolate y !! i = Some (Some (lerp (Z.of_nat a) ya (Z.of_nat b) yb (Z.of_nat i))).
Proof.
  intros (Hab & Ha & Hb & Hmid).
  rewrite (interpolate_after_valid y a ya i); [|done|lia|apply Hmid; lia].
  do 2 f_equal.
  assert (drop (S a) y !! (b - S a)%nat = Some (Some yb)) as Hb'.
  { rewrite lookup_drop. by replace (S a + (b - S a))%nat with b by lia. }
  rewrite <- (take_drop_middle _ _ _ Hb'), valid_points_from_app.
  rewrite valid_points_from_missing.
  2:{ intros c [k Hk]%list_elem_of_lookup.
      apply lookup_take_Some in Hk as [Hk Hlt]. rewrite lookup_drop in Hk.
      specialize (Hmid (S a + k)%nat). unfold missing_at in Hmid.
      rewrite Hmid in Hk by lia. congruence. }
  simpl. rewrite length_take.
  pose proof (lookup_lt_Some _ _ _ Hb') as Hlen.
  replace (Z.of_nat a + 1 + Z.of_nat ((b - S a) `min` length (drop (S a) y)))
    with (Z.of_nat b) by lia.
  rewrite (proj2 (Z.ltb_lt (Z.of_nat i) (Z.of_nat b))) by lia.
  by rewrite (proj2 (Z.eqb_neq (Z.of_nat i) (Z.of_nat a))) by lia.
Qed.

(** *** Bounds: an interpolated value stays in any set of numbers that
    holds the valid values and is closed under taking a point of a
    segment. *)

Section closed_set.
Variable P : Qc → Prop.
Hypothesis P_segment : ∀ y0 y1 t : Qc,
  (0 ≤ t)%Qc → (t ≤ 1)%Qc → P y0 → P y1 → P ((y1 - y0) * t + y0)%Qc.

Lemma np_interp_from_closed x x0 y0 rest :
  x0 ≤ x → P y0 → (∀ p, p ∈ rest → P p.2) → P (np_interp_from x x0 y0 rest).
Proof.
  revert x0 y0. induction rest as [|[x1 y1] rest IH]; intros x0 y0 Hx H0 Hrest; simpl.
  - done.
  - assert (P y1) as H1 by (apply (Hrest (x1, y1)); left).
    destruct (Z.ltb_spec x x1) as [Hlt|Hge].
    + destruct (Z.eqb_spec x x0) as [->|Hne]; [done|].
      rewrite slope_form.
      destruct (ratio_unit (x - x0) (x1 - x0)) as [Ht0 Ht1]; [lia|lia|].
      by apply P_segment.
    + apply IH; [done|done|]. intros p Hp. apply Hrest. by right.
Qed.

Lemma interpolate_closed (y : list cell) :
  (∀ v, Some v ∈ y → P v) → ∀ v, Some v ∈ interpolate y → P v.
Proof.
  intros Hy v [i Hi]%list_elem_of_lookup. unfold interpolate in Hi.
  destruct (valid_points y) as [|[f w] pts] eqn:Hvp.
  { apply Hy. by eapply list_elem_of_lookup_2. }
  assert (Hpts : ∀ p, p ∈ (f, w) :: pts → P p.2).
  { intros p Hp. apply Hy. rewrite <- Hvp in Hp.
    by eapply valid_points_from_value. }
  rewrite list_lookup_imap in Hi.
  destruct (y !! i) as [[u|]|] eqn:Hyi; simpl in Hi; [| |done].
  - injection Hi as ->. apply Hy. by eapply list_elem_of_lookup_2.
  - destruct (Z.ltb_spec (Z.of_nat i) f) as [Hlt|Hge]; [done|].
    simpl in Hi. injection Hi as <-. apply np_interp_from_closed; [done| |].
    + apply (Hpts (f, w)). left.
    + intros p Hp. apply Hpts. by right.
Qed.

End closed_set.

End interpolation.

(** ** [open_smart_meter] *)

Section cleaning.
Local Open Scope Qc_scope.

Lemma mask_errors_valid (y : list cell) (i : nat) (v : Qc) :
  mask_errors y !! i = Some (Some v) ↔ y !! i = Some (Some v) ∧ v ≤ Qc_of_Z 15.
Proof.
  unfold mask_errors. rewrite list_lookup_fmap.
  destruct (y !! i) as [[u|]|]; simpl;
    [|split; [done | by intros [? _]]..].
  destruct (decide (Qc_of_Z 15 < u)) as [Hgt|Hle].
  - split; [done|]. intros [[= ->] Hv]. by destruct (Qcle_not_lt _ _ Hv).
  - split.
    + intros [= ->]. split; [done|]. by apply Qcnot_lt_le.
    + by intros [[= ->] _].
Qed.

Lemma mask_errors_missing (y : list cell) (i : nat) :
  missing_at (mask_errors y) i ↔
  y !! i = Some None ∨ ∃ v, y !! i = Some (Some v) ∧ Qc_of_Z 15 < v.
Proof.
  unfold missing_at, mask_errors. rewrite list_lookup_fmap.
  destruct (y !! i) as [[u|]|]; simpl.
  - destruct (decide (Qc_of_Z 15 < u)) as [Hgt|Hle].
    + split; [|done]. intros _. right. by exists u.
    + split; [done|]. by intros [?|(v & [= ->] & ?)].
  - split; [by left | done].
  - split; [done | by intros [?|(v & ? & _)]].
Qed.

Lemma open_smart_meter_index (raw : series cell) :
  (open_smart_meter raw).*1 = raw.*1.
Proof.
  unfold open_smart_meter. apply fst_zip.
  rewrite length_interpolate. unfold mask_errors. by rewrite !length_fmap.
Qed.

Lemma open_smart_meter_imports (raw : series cell) :
  (open_smart_meter raw).*2 = interpolate (mask_errors raw.*2).
Proof.
  unfold open_smart_meter. apply snd_zip.
  rewrite length_interpolate. unfold mask_errors. by rewrite !length_fmap.
Qed.

(** No cleaned value is above the threshold. *)
Lemma open_smart_meter_le_15 (raw : series cell) (v : Qc) :
  Some v ∈ (open_smart_meter raw).*2 → v ≤ Qc_of_Z 15.
Proof.
  rewrite open_smart_meter_imports.
  apply (interpolate_closed (λ v, v ≤ Qc_of_Z 15)).
  - intros; by apply segment_le.
  - intros u [i Hi]%list_elem_of_lookup. by apply mask_errors_valid in Hi as [_ ?].
Qed.

End cleaning.

(** ** C2: what the cleaning does to a reading above 15 or a missing one *)

Section C2.
Local Open Scope Qc_scope.

(** C2, as stated, fails: a reading above 15 on the first row is left
    missing, not interpolated; and one between two valid readings that are
    not evenly spaced in time gets the value half-way between them, the
    rows being taken as equally spaced, not the value at its timestamp. *)
Lemma C2_counterexample :
  (missing_at (mask_errors raw_leading.*2) 0 ∧
   (open_smart_meter raw_leading).*2 !! 0%nat = Some None ∧
   ¬ time_interpolated raw_leading 0 None) ∧
  (missing_at (mask_errors raw_uneven.*2) 1 ∧
   (open_smart_meter raw_uneven).*2 !! 1%nat = Some (Some (Q2Qc (3 # 2))) ∧
   ¬ time_interpolated raw_uneven 1 (Some (Q2Qc (3 # 2)))).
Proof.
  split; (split; [reflexivity|split]).
  - reflexivity.
  - intros (a & b & ta & tb & t & ya & yb & _ & _ & _ & _ & H). discriminate.
  - by_compute.
  - intros (a & b & ta & tb & t & ya & yb & (Hab & Ha & Hb & _) & Hta & Htb & Ht & H).
    assert (a = 0%nat) as -> by lia.
    destruct b as [|[|[|b]]]; [lia|lia| |by vm_compute in Hb].
    injection Ha as <-. injection Hb as <-.
    injection Hta as <-. injection Htb as <-. injection Ht as <-.
    revert H. by_compute.
Qed.

(** C2, amended.  The cleaning keeps the rows and their timestamps, and
    leaves no reading above 15.  A reading of at most 15 is unchanged.  With
    [y] the column after the readings above 15 are marked missing, a row
    that is missing in [y] (a reading above 15 or a missing one) gets
    - between the nearest valid rows [a] and [b] around it: the value at
      its row number on the line through [(a, ya)] and [(b, yb)], the rows
      being equally spaced whatever their timestamps are; this is the
      value at its timestamp on the line through the two neighbours at
      theirs when the rows are evenly spaced in time;
    - after the last valid row: the value of that row;
    - before the first valid row: nothing, it stays missing. *)
Theorem C2_cleaning (raw : series cell) :
  let y := mask_errors raw.*2 in
  let cleaned := (open_smart_meter raw).*2 in
  (open_smart_meter raw).*1 = raw.*1 ∧
  (∀ v, Some v ∈ cleaned → v ≤ Qc_of_Z 15) ∧
  (∀ i v, raw.*2 !! i = Some (Some v) → v ≤ Qc_of_Z 15 →
          cleaned !! i = Some (Some v)) ∧
  (∀ i, raw.*2 !! i = Some None ∨
        (∃ v, raw.*2 !! i = Some (Some v) ∧ Qc_of_Z 15 < v) →
     missing_at y i ∧
     (∀ a b ya yb, valid_neighbours y a i b ya yb →
        cleaned !! i =
          Some (Some (lerp (Z.of_nat a) ya (Z.of_nat b) yb (Z.of_nat i)))) ∧
     (∀ a b ya yb t0 step, valid_neighbours y a i b ya yb →
        step ≠ 0%Z → evenly_spaced raw.*1 t0 step →
        ∃ c, cleaned !! i = Some c ∧ time_interpolated raw i c) ∧
     (∀ a ya, (a < i)%nat → y !! a = Some (Some ya) →
        (∀ k v, (a < k)%nat → y !! k ≠ Some (Some v)) →
        cleaned !! i = Some (Some ya)) ∧
     ((∀ a v, (a < i)%nat → y !! a ≠ Some (Some v)) →
        cleaned !! i = Some None)).
Proof.
  intros y cleaned. subst y cleaned.
  split; [apply open_smart_meter_index|].
  split; [intros v; apply open_smart_meter_le_15|].
  rewrite open_smart_meter_imports. split.
  - intros i v Hi Hv. apply interpolate_valid. by apply mask_errors_valid.
  - intros i Hi. apply mask_errors_missing in Hi. split; [done|].
    split; [|split; [|split]].
    + intros a b ya yb Hn. by apply interpolate_between.
    + intros a b ya yb t0 step Hn Hstep Heven.
      exists (Some (lerp (Z.of_nat a) ya (Z.of_nat b) yb (Z.of_nat i))).
      split; [by apply interpolate_between|].
      pose proof Hn as (Hab & Ha & Hb & _).
      assert (∀ j c, mask_errors raw.*2 !! j = Some c →
                     raw.*1 !! j = Some (t0 + Z.of_nat j * step)%Z) as Hidx.
      { intros j c Hj. apply lookup_lt_Some in Hj.
        unfold mask_errors in Hj. rewrite !length_fmap in Hj.
        destruct (raw.*1 !! j) as [t|] eqn:E.
        - by rewrite (Heven j t E).
        - apply lookup_ge_None in E. rewrite length_fmap in E. lia. }
      exists a, b, (t0 + Z.of_nat a * step)%Z, (t0 + Z.of_nat b * step)%Z,
             (t0 + Z.of_nat i * step)%Z, ya, yb.
      split; [done|]. split; [by eapply Hidx|]. split; [by eapply Hidx|].
      split; [eapply (Hidx i), Hi|].
      f_equal. symmetry. apply lerp_scale; [done | lia].
    + intros a ya Hai Ha Hno. by apply (interpolate_trailing _ a).
    + intros Hno. by apply interpolate_leading.
Qed.

Lemma C2_cleaning_witness :
  (open_smart_meter raw_inner).*2 !! 1%nat =
    Some (Some (lerp 0 (Qc_of_Z 1) 3 (Qc_of_Z 4) 1)) ∧
  (open_smart_meter raw_inner).*2 !! 0%nat = Some (Some (Qc_of_Z 1)) ∧
  (open_smart_meter raw_trailing).*2 !! 2%nat = Some (Some (Qc_of_Z 2)) ∧
  (open_smart_meter raw_leading).*2 !! 0%nat = Some None ∧
  (∃ c, (open_smart_meter raw_inner).*2 !! 1%nat = Some c ∧
        time_interpolated raw_inner 1 c).
Proof.
  split; [|split; [|split; [|split]]].
  - destruct (C2_cleaning raw_inner) as (_ & _ & _ & H).
    destruct (H 1%nat) as (_ & H1 & _ & _).
    { right. exists (Qc_of_Z 16). split; [reflexivity | by_compute]. }
    apply (H1 0%nat 3%nat). repeat split; [lia|lia|].
    intros k Hk. destruct k as [|[|[|k]]]; [lia|reflexivity|reflexivity|lia].
  - destruct (C2_cleaning raw_inner) as (_ & _ & H & _).
    apply H; [reflexivity | by_compute].
  - destruct (C2_cleaning raw_trailing) as (_ & _ & _ & H).
    destruct (H 2%nat) as (_ & _ & _ & H2 & _).
    { right. exists (Qc_of_Z 20). split; [reflexivity | by_compute]. }
    apply (H2 1%nat); [lia|reflexivity|].
    intros k v Hk. destruct k as [|[|[|k]]]; [lia|lia|discriminate|discriminate].
  - destruct (C2_cleaning raw_leading) as (_ & _ & _ & H).
    destruct (H 0%nat) as (_ & _ & _ & _ & H0).
    { right. exists (Qc_of_Z 20). split; [reflexivity | by_compute]. }
    apply H0. intros a v Ha. lia.
  - destruct (C2_cleaning raw_inner) as (_ & _ & _ & H).
    destruct (H 1%nat) as (_ & _ & H1 & _).
    { right. exists (Qc_of_Z 16). split; [reflexivity | by_compute]. }
    apply (H1 0%nat 3%nat (Qc_of_Z 1) (Qc_of_Z 4) 0%Z (minutes 30)).
    + repeat split; [lia|lia|].
      intros k Hk. destruct k as [|[|[|k]]]; [lia|reflexivity|reflexivity|lia].
    + done.
    + intros j t Hj.
      destruct j as [|[|[|[|j]]]]; simpl in Hj; try discriminate;
        injection Hj as <-; reflexivity.
Defined.

End C2.

(** ** C9: the sign of the cleaned readings *)

Section C9.
Local Open Scope Qc_scope.

(** C9, as stated, fails: a negative reading is not above 15, so the
    cleaning keeps it. *)
Lemma C9_counterexample :
  Some (Qc_of_Z (-1)) ∈ (open_smart_meter raw_negative).*2 ∧ Qc_of_Z (-1) < 0.
Proof.
  split; [|by_compute].
  apply list_elem_of_lookup. exists 0%nat. reflexivity.
Qed.

(** C9, amended.  The cleaning only removes the readings above 15: a
    negative reading is returned as it is, and the values of the cleaned
    series are all at least 0 when the raw readings that are not above 15
    are. *)
Theorem C9_nonnegative (raw : series cell) :
  (∀ i v, raw.*2 !! i = Some (Some v) → v < 0 →
          (open_smart_meter raw).*2 !! i = Some (Some v)) ∧
  ((∀ v, Some v ∈ raw.*2 → v ≤ Qc_of_Z 15 → 0 ≤ v) →
   ∀ v, Some v ∈ (open_smart_meter raw).*2 → 0 ≤ v).
Proof.
  rewrite open_smart_meter_imports. split.
  - intros i v Hi Hv. apply interpolate_valid. apply mask_errors_valid.
    split; [done|]. apply Qclt_le_weak. eapply Qclt_le_trans; [done|].
    by apply Qc_of_Z_nonneg.
  - intros Hraw. apply (interpolate_closed (λ v, 0 ≤ v)).
    + intros; by apply segment_ge.
    + intros u [i Hi]%list_elem_of_lookup.
      apply mask_errors_valid in Hi as [Hi Hu].
      apply Hraw; [|done]. by eapply list_elem_of_lookup_2.
Qed.

Lemma C9_nonnegative_witness :
  (open_smart_meter raw_negative).*2 !! 0%nat = Some (Some (Qc_of_Z (-1))) ∧
  ∀ v, Some v ∈ (open_smart_meter raw_inner).*2 → 0 ≤ v.
Proof.
  split.
  - apply (proj1 (C9_nonnegative raw_negative)); [reflexivity | by_compute].
  - apply (proj2 (C9_nonnegative raw_inner)).
    intros v Hv _. apply list_elem_of_lookup in Hv as [i Hi].
    destruct i as [|[|[|[|i]]]]; simpl in Hi; try discriminate;
      injection Hi as <-; by_compute.
Defined.

End C9.

(** ** [resample('W')] *)

Section resampling.
Local Open Scope Z_scope.

Lemma foldr_min_spec (x0 : Z) (l : list Z) :
  let m := foldr Z.min x0 l in
  (m = x0 ∨ m ∈ l) ∧ m ≤ x0 ∧ ∀ x, x ∈ l → m ≤ x.
Proof.
  induction l as [|x l IH]; simpl.
  - split; [by left|]. split; [lia|]. by intros ? ?%elem_of_nil.
  - destruct IH as ([E|E] & Hle & Hall);
      (split; [|split; [lia|]]).
    + destruct (Z.min_spec x (foldr Z.min x0 l)) as [[_ ->]|[_ ->]];
        [right; left | by left].
    + intros z [->|Hz]%elem_of_cons; [lia|]. specialize (Hall z Hz). lia.
    + destruct (Z.min_spec x (foldr Z.min x0 l)) as [[_ ->]|[_ ->]];
        right; [left | by right].
    + intros z [->|Hz]%elem_of_cons; [lia|]. specialize (Hall z Hz). lia.
Qed.

Lemma foldr_max_spec (x0 : Z) (l : list Z) :
  let m := foldr Z.max x0 l in
  (m = x0 ∨ m ∈ l) ∧ x0 ≤ m ∧ ∀ x, x ∈ l → x ≤ m.
Proof.
  induction l as [|x l IH]; simpl.
  - split; [by left|]. split; [lia|]. by intros ? ?%elem_of_nil.
  - destruct IH as ([E|E] & Hle & Hall);
      (split; [|split; [lia|]]).
    + destruct (Z.max_spec x (foldr Z.max x0 l)) as [[_ ->]|[_ ->]];
        [by left | right; left].
    + intros z [->|Hz]%elem_of_cons; [lia|]. specialize (Hall z Hz). lia.
    + destruct (Z.max_spec x (foldr Z.max x0 l)) as [[_ ->]|[_ ->]];
        right; [by right | left].
    + intros z [->|Hz]%elem_of_cons; [lia|]. specialize (Hall z Hz). lia.
Qed.

Lemma week_of_mono (t1 t2 : Z) : t1 ≤ t2 → week_of t1 ≤ week_of t2.
Proof.
  intros H. unfold week_of, day_of.
  apply Z.div_le_mono; [lia|].
  apply Z.add_le_mono_r, Z.div_le_mono; [done | done].
Qed.



Lemma week_label_inj (k1 k2 : Z) : week_label k1 = week_label k2 → k1 = k2.
Proof.
  unfold week_label. intros H.
  apply Z.mul_cancel_r in H; [lia | done].
Qed.

Lemma elem_of_in_week {A : Type} (index : A → Z) (k : Z) (rows : list A) (r : A) :
  r ∈ in_week index k rows ↔ r ∈ rows ∧ week_of (index r) = k.
Proof. unfold in_week. rewrite list_elem_of_filter. tauto. Qed.

(** The rows of the weekly table: one for each week from that of the
    first row in time to that of the last, with the aggregate of the rows
    of that week. *)
Lemma elem_of_resample_W {A B : Type} (index : A → Z) (agg : list A → B)
    (rows : list A) (lbl : Z) (b : B) :
  (lbl, b) ∈ resample_W index agg rows ↔
  ∃ k, lbl = week_label k ∧ b = agg (in_week index k rows) ∧
       spanned index rows k.
Proof.
  unfold spanned, resample_W. destruct rows as [|r rs].
  { split; [by intros ?%elem_of_nil|].
    by intros (k & _ & _ & r1 & _ & ?%elem_of_nil & _). }
  set (rows := r :: rs).
  pose proof (foldr_min_spec (index r) (index <$> rs)) as (Hmin & Hmin0 & Hmins).
  pose proof (foldr_max_spec (index r) (index <$> rs)) as (Hmax & Hmax0 & Hmaxs).
  set (first := foldr Z.min (index r) (index <$> rs)) in *.
  set (last := foldr Z.max (index r) (index <$> rs)) in *.
  assert (∃ r1, r1 ∈ rows ∧ index r1 = first) as (rf & Hrf & Hrfi).
  { destruct Hmin as [E|(x & -> & Hx)%list_elem_of_fmap].
    - exists r. split; [left | done].
    - exists x. split; [by right | done]. }
  assert (∃ r2, r2 ∈ rows ∧ index r2 = last) as (rl & Hrl & Hrli).
  { destruct Hmax as [E|(x & -> & Hx)%list_elem_of_fmap].
    - exists r. split; [left | done].
    - exists x. split; [by right | done]. }
  assert (∀ x, x ∈ rows → first ≤ index x ≤ last) as Hall.
  { intros x [->|Hx]%elem_of_cons; [lia|].
    split; [apply Hmins | apply Hmaxs]; apply list_elem_of_fmap; eauto. }
  rewrite list_elem_of_fmap. split.
  - intros (k & [= -> ->] & Hk). apply elem_of_seqZ in Hk.
    exists k. split; [done|]. split; [done|].
    exists rf, rl. rewrite Hrfi, Hrli. repeat split; [done|done|lia|lia].
  - intros (k & -> & -> & r1 & r2 & H1 & H2 & Hk).
    exists k. split; [done|]. apply elem_of_seqZ.
    pose proof (week_of_mono _ _ (proj1 (Hall r1 H1))).
    pose proof (week_of_mono _ _ (proj2 (Hall r2 H2))). lia.
Qed.

End resampling.

(** ** Sums and quotients *)

Section sums.
Local Open Scope Qc_scope.

Lemma fdiv_Fin (x y : Qc) : y ≠ 0 → fdiv (Fin x) (Fin y) = Fin (x / y).
Proof. intros H. unfold fdiv. by rewrite decide_False. Qed.

Lemma fdiv_Fin_0 (x : Qc) :
  fdiv (Fin x) (Fin 0) = if decide (x = 0) then NaN else inf_of_sign x.
Proof. unfold fdiv. by rewrite decide_True. Qed.


Lemma nansum_cons (c : cell) (l : list cell) :
  nansum (c :: l) = match c with Some x => x + nansum l | None => nansum l end.
Proof. done. Qed.

(** The products by a constant intensity sum to the constant times the sum. *)
Lemma nansum_cmul_const {A : Type} (f g : A → cell) (c : Qc) (rows : list A) :
  (∀ r, r ∈ rows → g r = Some c) →
  nansum ((λ r, cmul (f r) (g r)) <$> rows) = nansum (f <$> rows) * c.
Proof.
  induction rows as [|r rows IH]; intros Hg.
  - simpl. ring.
  - rewrite !fmap_cons, !nansum_cons, IH by (intros; apply Hg; by right).
    rewrite (Hg r) by left. destruct (f r); simpl; [ring|done].
Qed.

(** Non-negative values that sum to zero are all zero. *)
Lemma nansum_nonneg (l : list cell) :
  (∀ x, Some x ∈ l → 0 ≤ x) → 0 ≤ nansum l.
Proof.
  induction l as [|[x|] l IH]; intros H; rewrite ?nansum_cons.
  - done.
  - apply Qcplus_nonneg_nonneg; [apply H; left | apply IH; intros; apply H; by right].
  - apply IH. intros; apply H; by right.
Qed.

Lemma nansum_zero_nonneg (l : list cell) :
  (∀ x, Some x ∈ l → 0 ≤ x) → nansum l = 0 → ∀ x, Some x ∈ l → x = 0.
Proof.
  induction l as [|[x|] l IH]; intros H E z Hz.
  - by apply elem_of_nil in Hz.
  - rewrite nansum_cons in E.
    assert (0 ≤ x) as Hx by (apply H; left).
    assert (0 ≤ nansum l) as Hl by (apply nansum_nonneg; intros; apply H; by right).
    assert (x = 0 ∧ nansum l = 0) as [-> El].
    { split; apply Qcle_antisym; try done; rewrite <- E.
      - rewrite <- (Qcplus_0_r x) at 1. by apply Qcplus_le_mono_l.
      - rewrite <- (Qcplus_0_l (nansum l)) at 1. by apply Qcplus_le_mono_r. }
    apply elem_of_cons in Hz as [[= ->]|Hz]; [done|].
    apply IH; [intros; apply H; by right | done | done].
  - rewrite nansum_cons in E.
    apply elem_of_cons in Hz as [?|Hz]; [done|].
    apply IH; [intros; apply H; by right | done | done].
Qed.

(** Products with a column of zeros sum to zero. *)
Lemma nansum_cmul_zero {A : Type} (f g : A → cell) (rows : list A) :
  (∀ r x, r ∈ rows → f r = Some x → x = 0) →
  nansum ((λ r, cmul (f r) (g r)) <$> rows) = 0.
Proof.
  induction rows as [|r rows IH]; intros Hf; [done|].
  rewrite fmap_cons, nansum_cons, IH by (intros; eapply Hf; [by right|done]).
  destruct (f r) as [x|] eqn:E; [|done].
  rewrite (Hf r x) by (done || left). destruct (g r); simpl; [ring|done].
Qed.

End sums.

(** ** [carbon_mix] *)

Section carbon_mix.
Local Open Scope Qc_scope.
Implicit Types (smart_meter : list (Z * option Qc)) (grid : list grid_row).

Lemma elem_of_join_inner (df : list (Z * option Qc)) grid t x g :
  (t, x, g) ∈ join_inner df grid ↔ (t, x) ∈ df ∧ g ∈ grid ∧ DATETIME g = t.
Proof.
  unfold join_inner. rewrite list_elem_of_bind. split.
  - intros ([t' x'] & (g' & Hg' & Hg)%list_elem_of_bind & Hp).
    apply list_elem_of_filter in Hg as [Ht Hg]. simpl in *.
    apply list_elem_of_singleton in Hg' as [= -> -> ->]. done.
  - intros (Hp & Hg & Ht). exists (t, x). split; [|done].
    apply list_elem_of_bind. exists g. split; [apply list_elem_of_singleton; done|].
    by apply list_elem_of_filter.
Qed.

(** The two products of a row of the joined table. *)
Lemma joined_products smart_meter grid (r : row) :
  r ∈ joined smart_meter grid →
  home_carbon r = cmul (imports r) (carbon_intensity r) ∧
  grid_carbon r = cmul (grid_generation r) (carbon_intensity r).
Proof.
  unfold joined. intros ([[t x] g] & -> & _)%list_elem_of_fmap. done.
Qed.

Lemma weekly_sums_weighted smart_meter grid (k : Z) :
  let w := weekly_sums (in_week ts k (joined smart_meter grid)) in
  home_carbon_intensity w = weighted imports (in_week ts k (joined smart_meter grid)) ∧
  grid_carbon_intensity w =
    weighted grid_generation (in_week ts k (joined smart_meter grid)).
Proof.
  intros w. subst w. unfold weighted, weekly_sums.
  cbn [home_carbon_intensity grid_carbon_intensity].
  assert (Forall (λ r, home_carbon r = cmul (imports r) (carbon_intensity r) ∧
                       grid_carbon r = cmul (grid_generation r) (carbon_intensity r))
                 (in_week ts k (joined smart_meter grid))) as HF.
  { apply Forall_forall. intros r [Hr _]%elem_of_in_week.
    by eapply joined_products. }
  split; do 3 f_equal; apply Forall_fmap_ext_1; eapply Forall_impl; try exact HF;
    by intros r [? ?].
Qed.

Lemma elem_of_df_weekly smart_meter grid (lbl : Z) (w : weekly_row) :
  (lbl, w) ∈ df_weekly (carbon_mix smart_meter grid) ↔
  ∃ k, lbl = week_label k ∧
       w = weekly_sums (in_week ts k (joined smart_meter grid)) ∧
       spanned ts (joined smart_meter grid) k.
Proof. apply elem_of_resample_W. Qed.


End carbon_mix.

(** ** C1: the weekly intensities are load-weighted averages *)

Section C1.
Local Open Scope Qc_scope.




End C1.

(** ** C6: a constant intensity *)

Section C6.
Local Open Scope Qc_scope.

(** C6.  When the intensity is the same number [c] on every joined row,
    the weekly home intensity is [c] in every week whose imports do not
    sum to zero, and the weekly grid intensity is [c] in every week whose
    generation does not sum to zero. *)
Theorem C6_constant_intensity (smart_meter : series cell)
    (grid : list grid_row) (c : Qc) (lbl : Z) (w : weekly_row) :
  (∀ r, r ∈ joined smart_meter grid → carbon_intensity r = Some c) →
  (lbl, w) ∈ df_weekly (carbon_mix smart_meter grid) →
  (w_imports w ≠ 0 → home_carbon_intensity w = Fin c) ∧
  (w_grid_generation w ≠ 0 → grid_carbon_intensity w = Fin c).
Proof.
  intros Hc (k & -> & -> & _)%elem_of_df_weekly.
  destruct (weekly_sums_weighted smart_meter grid k) as [-> ->].
  set (rows := in_week ts k (joined smart_meter grid)).
  assert (∀ r, r ∈ rows → carbon_intensity r = Some c) as Hrows.
  { intros r [Hr _]%elem_of_in_week. by apply Hc. }
  unfold weighted, weekly_sums.
  cbn [w_imports w_grid_generation]. fold rows.
  split; intros HX; rewrite nansum_cmul_const with (c := c) by done;
    rewrite fdiv_Fin by done; f_equal; rewrite Qcmult_comm;
    by apply Qcdiv_mult_l.
Qed.

Lemma C6_constant_intensity_witness :
  let w := weekly_sums (in_week ts 1 (joined home_121 grid_const)) in
  home_carbon_intensity w = Fin (Qc_of_Z 5) ∧
  grid_carbon_intensity w = Fin (Qc_of_Z 5).
Proof.
  intros w.
  destruct (C6_constant_intensity home_121 grid_const (Qc_of_Z 5)
              (week_label 1) w) as [Hh Hg].
  - apply Forall_forall. by_compute.
  - by_compute.
  - split; [apply Hh | apply Hg]; by_compute.
Defined.

End C6.

(** ** C7: a week whose energy sums to zero *)

Section C7.
Local Open Scope Qc_scope.

(** C7, as stated, fails: an import of 1 kWh and an export of 1 kWh in one
    week sum to zero, the carbon sums to 100 - 200, and the weekly home
    intensity is minus infinity, not NaN. *)
Lemma C7_counterexample :
  let w := weekly_sums (in_week ts 1 (joined home_cancel grid_cancel)) in
  (week_label 1, w) ∈ df_weekly (carbon_mix home_cancel grid_cancel) ∧
  w_imports w = 0 ∧
  home_carbon_intensity w = NInf ∧
  home_carbon_intensity w ≠ NaN.
Proof. repeat split; by_compute. Qed.

(** C7, amended.  Nothing raises: every week of the table has its two
    intensities.  In a week whose energy sums to zero the intensity is not
    a finite number: it is NaN when the carbon of the week sums to zero
    too, which it does when no energy value of the week is negative, and
    an infinity otherwise.  A week whose energy does not sum to zero has
    the finite quotient of its own two sums. *)
Theorem C7_zero_divisor (smart_meter : series cell) (grid : list grid_row)
    (lbl : Z) (w : weekly_row) :
  (lbl, w) ∈ df_weekly (carbon_mix smart_meter grid) →
  ∃ k, lbl = week_label k ∧
    let rows := in_week ts k (joined smart_meter grid) in
    (w_imports w = 0 →
       is_finite (home_carbon_intensity w) = false ∧
       (home_carbon_intensity w = NaN ↔ w_home_carbon w = 0) ∧
       ((∀ r x, r ∈ rows → imports r = Some x → 0 ≤ x) →
        home_carbon_intensity w = NaN)) ∧
    (w_imports w ≠ 0 →
       home_carbon_intensity w = Fin (w_home_carbon w / w_imports w)) ∧
    (w_grid_generation w = 0 →
       is_finite (grid_carbon_intensity w) = false ∧
       (grid_carbon_intensity w = NaN ↔ w_grid_carbon w = 0) ∧
       ((∀ r x, r ∈ rows → grid_generation r = Some x → 0 ≤ x) →
        grid_carbon_intensity w = NaN)) ∧
    (w_grid_generation w ≠ 0 →
       grid_carbon_intensity w = Fin (w_grid_carbon w / w_grid_generation w)).
Proof.
  intros (k & -> & -> & _)%elem_of_df_weekly. exists k. split; [done|].
  intros rows. fold rows.
  assert (Forall (λ r, home_carbon r = cmul (imports r) (carbon_intensity r) ∧
                       grid_carbon r = cmul (grid_generation r) (carbon_intensity r))
                 rows) as HF.
  { apply Forall_forall. intros r [Hr _]%elem_of_in_week.
    by eapply joined_products. }
  assert (home_carbon <$> rows =
          (λ r, cmul (imports r) (carbon_intensity r)) <$> rows) as Eh.
  { apply Forall_fmap_ext_1. eapply Forall_impl; [exact HF|]. by intros r [? ?]. }
  assert (grid_carbon <$> rows =
          (λ r, cmul (grid_generation r) (carbon_intensity r)) <$> rows) as Eg.
  { apply Forall_fmap_ext_1. eapply Forall_impl; [exact HF|]. by intros r [? ?]. }
  unfold weekly_sums.
  cbn [w_imports w_grid_generation w_home_carbon w_grid_carbon
       home_carbon_intensity grid_carbon_intensity].
  assert (∀ x : Qc, is_finite (fdiv (Fin x) (Fin 0)) = false ∧
                    (fdiv (Fin x) (Fin 0) = NaN ↔ x = 0)) as Hzero.
  { intros x. rewrite fdiv_Fin_0. unfold inf_of_sign.
    destruct (decide (x = 0)); [done|]. by destruct (decide (0 < x)). }
  split; [|split; [|split]].
  - intros E. rewrite E. destruct (Hzero (nansum (home_carbon <$> rows))) as [H1 H2].
    split; [done|]. split; [done|]. intros Hpos. apply H2. rewrite Eh.
    apply nansum_cmul_zero. intros r x Hr Hx.
    apply (nansum_zero_nonneg (imports <$> rows)); [|done|].
    + intros z (r' & Hz & Hr')%list_elem_of_fmap. by eapply Hpos.
    + apply list_elem_of_fmap. by exists r.
  - intros NE. by apply fdiv_Fin.
  - intros E. rewrite E. destruct (Hzero (nansum (grid_carbon <$> rows))) as [H1 H2].
    split; [done|]. split; [done|]. intros Hpos. apply H2. rewrite Eg.
    apply nansum_cmul_zero. intros r x Hr Hx.
    apply (nansum_zero_nonneg (grid_generation <$> rows)); [|done|].
    + intros z (r' & Hz & Hr')%list_elem_of_fmap. by eapply Hpos.
    + apply list_elem_of_fmap. by exists r.
  - intros NE. by apply fdiv_Fin.
Qed.

Lemma C7_zero_divisor_witness :
  let w := weekly_sums (in_week ts 1 (joined home_idle grid_cancel)) in
  home_carbon_intensity w = NaN ∧
  grid_carbon_intensity w = Fin (w_grid_carbon w / w_grid_generation w).
Proof.
  intros w.
  destruct (C7_zero_divisor home_idle grid_cancel (week_label 1) w)
    as (k & Hk & Hh & _ & _ & Hg); [by_compute|].
  apply week_label_inj in Hk as <-.
  split.
  - destruct Hh as (_ & _ & Hh); [by_compute|]. apply Hh.
    assert (Forall (λ r, imports r = Some (Qc_of_Z 0))
              (in_week ts 1 (joined home_idle grid_cancel))) as HF by by_compute.
    intros r x Hr Hx. rewrite Forall_forall in HF.
    rewrite (HF r Hr) in Hx. injection Hx as <-. by_compute.
  - apply Hg. by_compute.
Defined.

End C7.

(** ** C3: the join keeps the timestamps that both series have *)

Section C3.
Implicit Types (df : list (Z * option Qc)) (grid : list grid_row).

Lemma bind_singleton {A B : Type} (f : A → B) (l : list A) :
  (a ← l; [f a]) = f <$> l.
Proof. induction l as [|a l IH]; [done|]. by rewrite bind_cons, IH. Qed.

Lemma join_inner_cons (p : Z * option Qc) df grid :
  join_inner (p :: df) grid =
  ((λ g, (p.1, p.2, g)) <$> filter (λ g, DATETIME g = p.1) grid)
    ++ join_inner df grid.
Proof. unfold join_inner. by rewrite bind_cons, bind_singleton. Qed.

(** With unique labels, at most one row of the grid has a given label. *)
Lemma filter_label_unique grid (t : Z) :
  NoDup (DATETIME <$> grid) →
  length (filter (λ g, DATETIME g = t) grid) =
    if decide (t ∈ DATETIME <$> grid) then 1%nat else 0%nat.
Proof.
  induction grid as [|g grid IH]; intros Hnd; [done|].
  rewrite fmap_cons in Hnd. apply NoDup_cons in Hnd as [Hg Hnd].
  rewrite filter_cons, fmap_cons.
  destruct (decide (DATETIME g = t)) as [<-|Hne].
  - rewrite decide_True by left. simpl. rewrite IH by done.
    by rewrite decide_False.
  - rewrite IH by done. destruct (decide (t ∈ DATETIME <$> grid)) as [Hin|Hni].
    + rewrite decide_True; [done | by right].
    + rewrite decide_False; [done|]. by intros [?|?]%elem_of_cons.
Qed.

Lemma elem_of_join_labels df grid (t : Z) :
  t ∈ (λ j, j.1.1) <$> join_inner df grid ↔ t ∈ df.*1 ∧ t ∈ DATETIME <$> grid.
Proof.
  rewrite !list_elem_of_fmap. split.
  - intros ([[t' x] g] & -> & (Hp & Hg & Ht)%elem_of_join_inner). simpl. split.
    + exists (t', x). done.
    + exists g. done.
  - intros [([t' x] & -> & Hp) (g & Ht & Hg)]. simpl in *.
    exists (t', x, g). split; [done|]. by apply elem_of_join_inner.
Qed.

Lemma join_labels_NoDup df grid :
  NoDup df.*1 → NoDup (DATETIME <$> grid) →
  NoDup ((λ j, j.1.1) <$> join_inner df grid).
Proof.
  intros Hdf Hgrid. induction df as [|[t x] df IH]; [constructor|].
  rewrite fmap_cons in Hdf. apply NoDup_cons in Hdf as [Ht Hdf].
  rewrite join_inner_cons, fmap_app. apply NoDup_app. split; [|split].
  - rewrite <- list_fmap_compose. simpl.
    pose proof (filter_label_unique grid t Hgrid) as Hlen.
    destruct (filter (λ g, DATETIME g = t) grid) as [|g [|g' l]]; simpl.
    + constructor.
    + apply NoDup_singleton.
    + simpl in Hlen. by destruct (decide (t ∈ DATETIME <$> grid)).
  - intros t' (j & -> & (g & -> & _)%list_elem_of_fmap)%list_elem_of_fmap.
    simpl. intros [Hin _]%elem_of_join_labels. done.
  - by apply IH.
Qed.

Lemma length_join_inner df grid :
  length (join_inner df grid) =
  sum_list ((λ t, length (filter (λ g, DATETIME g = t) grid)) <$> df.*1).
Proof.
  induction df as [|p df IH]; [done|].
  rewrite join_inner_cons, length_app, length_fmap, IH. done.
Qed.

Lemma joined_labels smart_meter grid :
  ts <$> joined smart_meter grid =
  (λ j, j.1.1) <$> join_inner (open_smart_meter smart_meter) grid.
Proof.
  unfold joined. rewrite <- list_fmap_compose.
  apply list_fmap_ext. by intros _ [[t x] g] _.
Qed.

(** C3.  The joined table has a row for a timestamp exactly when both
    series have that timestamp, so a row of either series whose timestamp
    the other lacks is dropped; each joined row carries the imports of its
    home row and the intensity and generation of its grid row; there is a
    joined row for each pair of a home row and a grid row of the same
    timestamp; and so, the timestamps of each series being distinct, the
    number of joined rows is the number of timestamps the two series
    share. *)
Theorem C3_inner_join (smart_meter : series cell) (grid : list grid_row) :
  let df := joined smart_meter grid in
  (∀ t, t ∈ ts <$> df ↔ t ∈ smart_meter.*1 ∧ t ∈ DATETIME <$> grid) ∧
  (∀ r, r ∈ df →
     ∃ g, (ts r, imports r) ∈ open_smart_meter smart_meter ∧ g ∈ grid ∧
          DATETIME g = ts r ∧ carbon_intensity r = CARBON_INTENSITY g ∧
          grid_generation r = GENERATION g) ∧
  length df =
    sum_list ((λ t, length (filter (λ g, DATETIME g = t) grid))
                <$> smart_meter.*1) ∧
  (NoDup smart_meter.*1 → NoDup (DATETIME <$> grid) →
   length df = size (common_labels smart_meter grid)).
Proof.
  intros df. subst df. split; [|split; [|split]].
  - intros t. rewrite joined_labels, elem_of_join_labels.
    by rewrite open_smart_meter_index.
  - unfold joined. intros r ([[t x] g] & -> & Hj)%list_elem_of_fmap.
    apply elem_of_join_inner in Hj as (Hp & Hg & Ht). by exists g.
  - unfold joined. rewrite length_fmap, length_join_inner.
    by rewrite open_smart_meter_index.
  - intros Hh Hg.
    rewrite <- (length_fmap ts), joined_labels.
    rewrite <- open_smart_meter_index in Hh.
    rewrite <- (size_list_to_set (C:=gset Z)) by by apply join_labels_NoDup.
    f_equal. apply set_eq. intros t. unfold common_labels.
    rewrite elem_of_intersection, !elem_of_list_to_set, elem_of_join_labels.
    by rewrite open_smart_meter_index.
Qed.

Lemma C3_inner_join_witness :
  length (joined home_121 grid_shifted) = size (common_labels home_121 grid_shifted).
Proof.
  destruct (C3_inner_join home_121 grid_shifted) as (_ & _ & _ & H).
  apply H; by_compute.
Defined.

End C3.

(** ** C8: the overall averages and the lines printed *)

Section C8.
Local Open Scope Qc_scope.

(** Rounding moves a number by half a unit at most. *)
Lemma round_half_even_near (x : Qc) :
  Qc_of_Z (round_half_even x) - Q2Qc (1 # 2) ≤ x ∧
  x ≤ Qc_of_Z (round_half_even x) + Q2Qc (1 # 2).
Proof.
  unfold round_half_even.
  pose proof (Qfloor_le x) as Hlo. pose proof (Qlt_floor x) as Hhi.
  set (n := Qfloor x) in *.
  destruct (decide (x - Qc_of_Z n < Q2Qc (1 # 2))) as [H1|H1].
  { qc_to_q. split; lra. }
  apply Qcnot_lt_le in H1.
  destruct (decide (Q2Qc (1 # 2) < x - Qc_of_Z n)) as [H2|H2].
  { qc_to_q. split; lra. }
  apply Qcnot_lt_le in H2.
  destruct (Z.even n); qc_to_q; split; lra.
Qed.

Lemma round_half_even_nonneg (x : Qc) : 0 ≤ x → (0 ≤ round_half_even x)%Z.
Proof.
  intros Hx. unfold round_half_even.
  assert (0 ≤ Qfloor x)%Z as Hn.
  { change 0%Z with (Qfloor 0). apply Qfloor_resp_le. exact Hx. }
  repeat case_decide; try destruct (Z.even _); lia.
Qed.

Lemma pretty_digit (d : Z) : (0 ≤ d ≤ 9)%Z → String.length (pretty d) = 1%nat.
Proof.
  intros H.
  assert (d = 0 ∨ d = 1 ∨ d = 2 ∨ d = 3 ∨ d = 4 ∨ d = 5 ∨ d = 6 ∨ d = 7 ∨
          d = 8 ∨ d = 9)%Z as Hd by lia.
  repeat destruct Hd as [->|Hd]; try subst d; reflexivity.
Qed.

Lemma magnitude_nonneg (x : Qc) : 0 ≤ (if decide (x < 0) then - x else x).
Proof.
  destruct (decide (x < 0)) as [H|H].
  - apply Qclt_le_weak in H. apply Qcopp_le_compat in H. exact H.
  - by apply Qcnot_lt_le.
Qed.

Lemma format_2f_two_decimals (v : fval) : two_decimals v (format_2f v).
Proof.
  destruct v as [x| | |]; try reflexivity.
  unfold two_decimals, format_2f.
  set (h := hundredths x).
  assert (0 ≤ h)%Z as Hh.
  { apply round_half_even_nonneg, Qcmult_nonneg_nonneg;
      [apply magnitude_nonneg | by apply Qc_of_Z_nonneg]. }
  pose proof (Z.mod_pos_bound (h / 10) 10 eq_refl) as H1.
  pose proof (Z.mod_pos_bound h 10 eq_refl) as H2.
  exists (if decide (x < 0) then "-" else ""), h, ((h / 10) mod 10)%Z, (h mod 10)%Z.
  split; [case_decide; [by left | by right]|].
  split; [intros Hx; by rewrite decide_True|].
  split.
  { intros Hx. rewrite decide_False; [done|]. intros Hn.
    apply (irreflexivity Qclt 0). by etrans. }
  split; [done|]. split; [lia|]. split; [lia|]. split.
  { pose proof (Z.div_mod h 10). pose proof (Z.div_mod (h / 10) 10).
    rewrite Z.div_div in * by lia. change (10 * 10)%Z with 100%Z in *. lia. }
  split; [done|].
  split; [apply pretty_digit; lia|]. split; [apply pretty_digit; lia|].
  apply round_half_even_near.
Qed.

(** Two integers less than one apart are the same. *)
Lemma Qc_of_Z_near (h h0 : Z) (y : Qc) :
  Qc_of_Z h - Q2Qc (1 # 2) ≤ y → y ≤ Qc_of_Z h + Q2Qc (1 # 2) →
  Qc_of_Z h0 - Q2Qc (1 # 2) < y → y < Qc_of_Z h0 + Q2Qc (1 # 2) →
  h = h0.
Proof.
  intros H1 H2 H3 H4.
  assert (Qc_of_Z h < Qc_of_Z (h0 + 1)) as Hlt.
  { rewrite Z2Qc_inj_add. qc_to_q. lra. }
  assert (Qc_of_Z h0 < Qc_of_Z (h + 1)) as Hgt.
  { rewrite Z2Qc_inj_add. qc_to_q. lra. }
  apply (proj2 (Z2Qc_inj_lt _ _)) in Hlt, Hgt. lia.
Qed.

(** Away from a tie between two hundredths, the value fixes the line. *)
Lemma two_decimals_pins (x : Qc) (h0 : Z) (s : string) :
  two_decimals (Fin x) s → 0 < x →
  Qc_of_Z h0 - Q2Qc (1 # 2) < x * Qc_of_Z 100 →
  x * Qc_of_Z 100 < Qc_of_Z h0 + Q2Qc (1 # 2) →
  s = pretty (h0 / 100)%Z +:+ "." +:+ pretty (h0 / 10 mod 10)%Z
        +:+ pretty (h0 mod 10)%Z.
Proof.
  intros (sign & h & d1 & d2 & _ & _ & Hsign & Hh & Hd1 & Hd2 & Hdig & -> & _ & _
          & Hlo & Hhi) Hx H1 H2.
  rewrite (Hsign Hx).
  assert (¬ x < 0) as Hn by (intros Hn; apply (irreflexivity Qclt 0); by etrans).
  rewrite !decide_False in Hlo, Hhi by done.
  assert (h = h0) as -> by by eapply Qc_of_Z_near.
  assert (d1 = h0 / 10 mod 10 ∧ d2 = h0 mod 10)%Z as [-> ->]; [|done].
  clear -Hd1 Hd2 Hdig. Z.to_euclidean_division_equations. lia.
Qed.

Lemma dataset_total_nansum (l : list (option Qc)) : dataset_total l = nansum l.
Proof.
  unfold dataset_total.
  assert (∀ a, foldl (λ acc c, match c with Some x => acc + x | None => acc end) a l
               = a + nansum l) as H.
  { induction l as [|[x|] l IH]; intros a; cbn [foldl]; rewrite ?nansum_cons.
    - simpl. ring.
    - rewrite IH. ring.
    - apply IH. }
  rewrite H. ring.
Qed.

Lemma carbon_of_cmul (x c : option Qc) : carbon_of x c = cmul x c.
Proof. by destruct x, c. Qed.

(** C8.  The two files having a row at least: the carbon of a joined row
    is its energy times its intensity; the home average is the total of
    the home carbon over all the joined rows divided by the total of their
    imports, and the grid average the total of the grid carbon divided by
    the total of the generation, each a number when its divisor is not
    zero and none otherwise; and the two lines printed give the two
    averages to two decimal places. *)
Theorem C8_overall_averages (smart_meter : series cell) (grid : list grid_row) :
  smart_meter ≠ [] → grid ≠ [] →
  let df := joined smart_meter grid in
  let report := carbon_mix smart_meter grid in
  let total_home_carbon :=
    dataset_total ((λ r, carbon_of (imports r) (carbon_intensity r)) <$> df) in
  let total_grid_carbon :=
    dataset_total ((λ r, carbon_of (grid_generation r) (carbon_intensity r)) <$> df) in
  let total_imports := dataset_total (imports <$> df) in
  let total_grid_generation := dataset_total (grid_generation <$> df) in
  (∀ r, r ∈ df →
     home_carbon r = carbon_of (imports r) (carbon_intensity r) ∧
     grid_carbon r = carbon_of (grid_generation r) (carbon_intensity r)) ∧
  (total_imports ≠ 0 →
   home_avg report = Fin (total_home_carbon / total_imports)) ∧
  (total_grid_generation ≠ 0 →
   grid_avg report = Fin (total_grid_carbon / total_grid_generation)) ∧
  (total_imports = 0 → is_finite (home_avg report) = false) ∧
  (total_grid_generation = 0 → is_finite (grid_avg report) = false) ∧
  (∃ home_line grid_line,
     stdout report =
       [ "Home Average Carbon Intensity: " +:+ home_line +:+ " g/kWh";
         "Grid Average Carbon Intensity: " +:+ grid_line +:+ " g/kWh" ] ∧
     two_decimals (home_avg report) home_line ∧
     two_decimals (grid_avg report) grid_line).
Proof.
  intros _ _ df report th tg ti tgen.
  assert (∀ r, r ∈ df →
            home_carbon r = carbon_of (imports r) (carbon_intensity r) ∧
            grid_carbon r = carbon_of (grid_generation r) (carbon_intensity r))
    as Hrows.
  { intros r Hr. rewrite !carbon_of_cmul. by eapply joined_products. }
  assert (home_avg report = fdiv (Fin th) (Fin ti)) as Eh.
  { unfold th, ti. rewrite !dataset_total_nansum.
    unfold report, carbon_mix. cbn [home_avg]. fold df. do 3 f_equal.
    apply Forall_fmap_ext_1, Forall_forall. intros r Hr. by apply Hrows. }
  assert (grid_avg report = fdiv (Fin tg) (Fin tgen)) as Eg.
  { unfold tg, tgen. rewrite !dataset_total_nansum.
    unfold report, carbon_mix. cbn [grid_avg]. fold df. do 3 f_equal.
    apply Forall_fmap_ext_1, Forall_forall. intros r Hr. by apply Hrows. }
  split; [done|].
  split; [intros H; by rewrite Eh, fdiv_Fin|].
  split; [intros H; by rewrite Eg, fdiv_Fin|].
  split.
  { intros H. rewrite Eh, H, fdiv_Fin_0. case_decide; [done|].
    unfold inf_of_sign. by case_decide. }
  split.
  { intros H. rewrite Eg, H, fdiv_Fin_0. case_decide; [done|].
    unfold inf_of_sign. by case_decide. }
  exists (format_2f (home_avg report)), (format_2f (grid_avg report)).
  split; [done|]. split; apply format_2f_two_decimals.
Qed.

Lemma C8_overall_averages_witness :
  let report := carbon_mix home_123 grid_121 in
  home_avg report = Fin (Q2Qc (70 # 3)) ∧
  grid_avg report = Fin (Qc_of_Z 20) ∧
  stdout report =
    [ "Home Average Carbon Intensity: 23.33 g/kWh";
      "Grid Average Carbon Intensity: 20.00 g/kWh" ].
Proof.
  intros report.
  destruct (C8_overall_averages home_123 grid_121)
    as (_ & Hh & Hg & _ & _ & home_line & grid_line & Hout & Hhl & Hgl);
    [done | done |].
  fold report in Hh, Hg, Hout, Hhl, Hgl.
  assert (home_avg report = Fin (Q2Qc (70 # 3))) as Eh.
  { rewrite Hh; by_compute. }
  assert (grid_avg report = Fin (Qc_of_Z 20)) as Eg.
  { rewrite Hg; by_compute. }
  split; [done|]. split; [done|].
  rewrite Eh in Hhl. rewrite Eg in Hgl.
  apply (two_decimals_pins _ 2333) in Hhl; [|by_compute..].
  apply (two_decimals_pins _ 2000) in Hgl; [|by_compute..].
  rewrite Hout, Hhl, Hgl. reflexivity.
Defined.

End C8.

(** ** The source mix *)

Section source_mix.
Local Open Scope Qc_scope.
Implicit Types (g : grid_row) (s : source) (grid : list grid_row).

Lemma nansum_f_of_cell (l : list (option Qc)) :
  nansum_f (of_cell <$> l) = Fin (nansum l).
Proof.
  induction l as [|[x|] l IH]; [done| |]; rewrite fmap_cons; simpl; by rewrite IH.
Qed.

Lemma fsum_Fin (l : list Qc) : fsum (Fin <$> l) = Fin (nansum (Some <$> l)).
Proof. induction l as [|x l IH]; [done|]. rewrite !fmap_cons. simpl. by rewrite IH. Qed.

Lemma nansum_div {A : Type} (f : A → option Qc) (T : Qc) (l : list A) :
  nansum ((λ a, (λ v, v / T) <$> f a) <$> l) = nansum (f <$> l) / T.
Proof.
  induction l as [|a l IH]; rewrite ?fmap_cons, ?nansum_cons.
  - simpl. unfold Qcdiv. ring.
  - rewrite IH. destruct (f a); simpl; [|done]. unfold Qcdiv. ring.
Qed.

(** A fraction of a row whose total is not zero is a number or NaN. *)
Lemma grid_mix_row_cell g s :
  source_total g ≠ 0 →
  grid_mix_row g s = of_cell ((λ v, v / source_total g) <$> mix g s).
Proof.
  intros HT. unfold grid_mix_row. destruct (mix g s); simpl; [|done].
  by rewrite decide_False.
Qed.

Lemma fractions_nansum g (l : list source) :
  source_total g ≠ 0 →
  nansum_f (grid_mix_row g <$> l) = Fin (nansum (mix g <$> l) / source_total g).
Proof.
  intros HT. rewrite <- nansum_div, <- nansum_f_of_cell, <- list_fmap_compose.
  f_equal. apply list_fmap_ext. intros _ s _. by apply grid_mix_row_cell.
Qed.

Lemma fractions_fsum g (l : list source) :
  source_total g ≠ 0 → (∀ s, mix g s ≠ None) →
  fsum (grid_mix_row g <$> l) = Fin (nansum (mix g <$> l) / source_total g).
Proof.
  intros HT Hall. induction l as [|s l IH].
  - simpl. f_equal. unfold Qcdiv. ring.
  - rewrite !fmap_cons, nansum_cons. simpl. rewrite IH.
    rewrite grid_mix_row_cell by done.
    destruct (mix g s) as [x|] eqn:E; [|by destruct (Hall s)].
    simpl. f_equal. unfold Qcdiv. ring.
Qed.

End source_mix.

(** ** C4: the fractions of a grid row sum to one *)

Section C4.
Local Open Scope Qc_scope.

(** C4.  In a row of the grid whose ten source columns do not sum to zero,
    each fraction is the column over that sum (NaN where the column is
    missing), and the fractions sum to 1: as pandas sums them, skipping
    NaN, in every such row, and as a plain sum when no column is missing. *)
Theorem C4_fractions_sum_to_one (grid : list grid_row) (g : grid_row) :
  g ∈ grid → source_total g ≠ 0 →
  (∀ s, (DATETIME g, grid_mix_row g s) ∈ grid_mix grid s) ∧
  (∀ s, grid_mix_row g s =
        match mix g s with
        | Some x => Fin (x / source_total g)
        | None => NaN
        end) ∧
  nansum_f (grid_mix_row g <$> GENERATION_MIX_COLUMNS) = Fin 1 ∧
  ((∀ s, mix g s ≠ None) →
   fsum (grid_mix_row g <$> GENERATION_MIX_COLUMNS) = Fin 1).
Proof.
  intros Hg HT.
  assert (nansum (mix g <$> GENERATION_MIX_COLUMNS) / source_total g = 1) as E.
  { fold (source_total g). unfold Qcdiv. by apply Qcmult_inv_r. }
  split; [|split; [|split]].
  - intros s. unfold grid_mix. apply list_elem_of_fmap. by exists g.
  - intros s. rewrite grid_mix_row_cell by done. by destruct (mix g s).
  - by rewrite fractions_nansum, E.
  - intros Hall. by rewrite fractions_fsum, E.
Qed.

Lemma C4_fractions_sum_to_one_witness :
  nansum_f (grid_mix_row (mix_at (days 5) 1 3) <$> GENERATION_MIX_COLUMNS) = Fin 1 ∧
  fsum (grid_mix_row (mix_at (days 5) 1 3) <$> GENERATION_MIX_COLUMNS) = Fin 1.
Proof.
  destruct (C4_fractions_sum_to_one grid_two (mix_at (days 5) 1 3))
    as (_ & _ & H1 & H2); [left | by_compute |].
  split; [exact H1|]. apply H2. by intros [].
Defined.

End C4.

(** ** [calculate_home_source_usage] *)

Section attribution.
Local Open Scope Qc_scope.
Implicit Types (df : list (Z * option Qc)) (grid : list grid_row) (s : source).


(** In a series with unique labels a label finds its row. *)
Lemma loc_NoDup {V : Type} (t : Z) (v : V) (sr : list (Z * V)) :
  NoDup sr.*1 → (t, v) ∈ sr → loc t sr = Some v.
Proof.
  induction sr as [|[t' v'] sr IH]; intros Hnd Hin; [by apply elem_of_nil in Hin|].
  rewrite fmap_cons in Hnd. apply NoDup_cons in Hnd as [Hni Hnd]. simpl.
  apply elem_of_cons in Hin as [[= <- <-]|Hin].
  - by rewrite decide_True.
  - rewrite decide_False; [by apply IH|]. intros ->. apply Hni.
    apply list_elem_of_fmap. by exists (t, v).
Qed.

Lemma loc_fmap_label {V : Type} (F : Z → V) (t : Z) (idx : list Z) :
  loc t ((λ t', (t', F t')) <$> idx) = if decide (t ∈ idx) then Some (F t) else None.
Proof.
  induction idx as [|t' idx IH]; [done|]. rewrite fmap_cons. simpl.
  destruct (decide (t' = t)) as [->|Hne].
  - rewrite decide_True; [done | left].
  - rewrite IH. destruct (decide (t ∈ idx)) as [Hin|Hni].
    + rewrite decide_True; [done | by right].
    + rewrite decide_False; [done|]. intros [?|?]%elem_of_cons; by subst.
Qed.

Lemma loc_grid_mix grid s (t : Z) :
  loc t (grid_mix grid s) =
  (λ g, grid_mix_row g s) <$> head (filter (λ g, DATETIME g = t) grid).
Proof.
  unfold grid_mix. induction grid as [|g grid IH]; [done|].
  rewrite fmap_cons, filter_cons. simpl.
  destruct (decide (DATETIME g = t)); [done|]. apply IH.
Qed.

(** The product of two series at a label of either. *)
Lemma loc_series_mul df (b : list (Z * fval)) (t : Z) :
  t ∈ df.*1 ∨ t ∈ b.*1 →
  loc t (series_mul df b) =
    Some (fmul (of_cell (default None (loc t df))) (default NaN (loc t b))).
Proof.
  intros Hin. unfold series_mul.
  rewrite (loc_fmap_label
             (λ t, fmul (of_cell (default None (loc t df))) (default NaN (loc t b)))).
  rewrite decide_True; [done|]. apply elem_of_app.
  destruct (decide (t ∈ df.*1)); [by left|]. right.
  apply list_elem_of_filter. split; [done|]. by destruct Hin.
Qed.

Lemma fmul_NaN_r (v : fval) : fmul v NaN = NaN.
Proof. by destruct v. Qed.

(** A frame with rows keeps them through the loop. *)
Lemma attribute_rows df grid :
  df ≠ [] →
  attribute df grid =
  imap (λ i p, {| u_ts := p.1;
                  u_imports := p.2;
                  attributed := λ s,
                    default NaN
                      (reindex (series_mul df (grid_mix grid s)) df.*1 !! i) |}) df.
Proof. by destruct df. Qed.

(** A frame without a row takes the labels of the grid series, and has NaN
    in every column. *)
Lemma attribute_nil grid :
  u_ts <$> attribute [] grid = DATETIME <$> grid ∧
  ∀ r s, r ∈ attribute [] grid → attributed r s = NaN.
Proof.
  unfold attribute. cbn [ensure_valid_index].
  set (df := (λ t : Z, (t, @None Qc)) <$> (series_mul [] (grid_mix grid GAS)).*1).
  assert (df.*1 = DATETIME <$> grid) as Eidx.
  { unfold df. rewrite <- list_fmap_compose, list_fmap_id.
    transitivity (grid_mix grid GAS).*1;
      [|unfold grid_mix; by rewrite <- list_fmap_compose].
    unfold series_mul. rewrite <- list_fmap_compose. cbn [fmap list_fmap app].
    generalize (grid_mix grid GAS).*1. intros l.
    induction l as [|t l IH]; [done|].
    rewrite filter_cons, decide_True by apply not_elem_of_nil.
    rewrite fmap_cons. by f_equal. }
  split.
  - rewrite fmap_imap. rewrite <- Eidx. apply list_eq. intros i.
    by rewrite list_lookup_imap, list_lookup_fmap.
  - intros r s (i & p & -> & Hp)%elem_of_lookup_imap. cbn [attributed].
    unfold reindex. rewrite list_lookup_fmap, list_lookup_fmap, Hp. simpl.
    assert (p.1 ∈ df.*1) as Hin.
    { apply list_elem_of_fmap. exists p. split; [done|].
      by eapply list_elem_of_lookup_2. }
    rewrite loc_series_mul by by left. simpl.
    assert (default None (loc p.1 df) = None) as ->; [|done].
    clear. unfold df. generalize ((series_mul [] (grid_mix grid GAS)).*1).
    intros l. induction l as [|t l IH]; [done|].
    rewrite fmap_cons. simpl. by case_decide.
Qed.

Lemma nansum_f_NaN (l : list fval) : (∀ v, v ∈ l → v = NaN) → nansum_f l = Fin 0.
Proof.
  induction l as [|v l IH]; intros H; [done|].
  simpl. rewrite (H v) by left. simpl. apply IH. intros; apply H; by right.
Qed.

(** The column of a source in [df], row by row. *)
Lemma attribute_column df grid s :
  NoDup df.*1 → df ≠ [] →
  (λ r, (u_ts r, attributed r s)) <$> attribute df grid =
  (λ p, (p.1, attributed_to grid s p)) <$> df.
Proof.
  intros Hnd Hne. apply list_eq. intros i. rewrite attribute_rows by done.
  rewrite !list_lookup_fmap, list_lookup_imap.
  destruct (df !! i) as [[t x]|] eqn:E; [|done]. simpl. do 2 f_equal.
  unfold reindex. rewrite !list_lookup_fmap, E. simpl.
  assert (t ∈ df.*1) as Ht.
  { apply list_elem_of_fmap. exists (t, x). split; [done|].
    by eapply list_elem_of_lookup_2. }
  rewrite loc_series_mul by by left. simpl.
  rewrite (loc_NoDup t x df) by (done || by eapply list_elem_of_lookup_2).
  rewrite loc_grid_mix. unfold attributed_to. simpl.
  destruct (head (filter (λ g, DATETIME g = t) grid)); simpl; [done|].
  apply fmul_NaN_r.
Qed.

Lemma in_week_fmap {A C : Type} (f : A → C) (index : C → Z) (k : Z) (l : list A) :
  in_week index k (f <$> l) = f <$> in_week (index ∘ f) k l.
Proof.
  unfold in_week. induction l as [|a l IH]; [done|].
  rewrite fmap_cons, !filter_cons. simpl.
  destruct (decide (week_of (index (f a)) = k)); by rewrite ?fmap_cons, IH.
Qed.

(** The weekly sum of a source is the sum of what the rows of that week
    are attributed of it. *)
Lemma weekly_usage_attributed df grid s (k : Z) :
  NoDup df.*1 →
  weekly_usage_sums (in_week u_ts k (attribute df grid)) s =
  nansum_f (attributed_to grid s <$> in_week fst k df).
Proof.
  intros Hnd. unfold weekly_usage_sums.
  destruct (decide (df = [])) as [->|Hne].
  { apply nansum_f_NaN. intros v (r & -> & [Hr _]%elem_of_in_week)%list_elem_of_fmap.
    by apply (proj2 (attribute_nil grid)). }
  transitivity (nansum_f (snd <$> in_week fst k
                  ((λ r, (u_ts r, attributed r s)) <$> attribute df grid))).
  { rewrite in_week_fmap, <- list_fmap_compose. done. }
  rewrite attribute_column by done.
  rewrite in_week_fmap, <- list_fmap_compose. done.
Qed.

Lemma nansum_f_cons (v : fval) (l : list fval) :
  nansum_f (v :: l) = if is_nan v then nansum_f l else fadd v (nansum_f l).
Proof. done. Qed.

Lemma omap_cons_match {A C : Type} (f : A → option C) (a : A) (l : list A) :
  omap f (a :: l) = match f a with Some c => c :: omap f l | None => omap f l end.
Proof. done. Qed.

(** The rows without a grid row add nothing. *)
Lemma attributed_common grid s (rows : list (Z * option Qc)) :
  nansum_f (attributed_to grid s <$> rows) =
  nansum_f ((λ xg : option Qc * grid_row, fmul (of_cell xg.1) (grid_mix_row xg.2 s))
              <$> omap (λ p, (λ g, (p.2, g))
                               <$> head (filter (λ g, DATETIME g = p.1) grid)) rows).
Proof.
  induction rows as [|p rows IH]; [done|].
  rewrite fmap_cons, nansum_f_cons, omap_cons_match, IH.
  unfold attributed_to at 1 2.
  destruct (head (filter (λ g, DATETIME g = p.1) grid)) as [g|]; [|done].
  cbn [fmap option_fmap option_map]. by rewrite fmap_cons, nansum_f_cons.
Qed.


End attribution.

Section usage_table.
Local Open Scope Qc_scope.
Implicit Types (df : list (Z * option Qc)) (grid : list grid_row) (s : source).

Lemma spanned_fmap {A C : Type} (f : A → C) (index : C → Z) (l : list A) (k : Z) :
  spanned index (f <$> l) k ↔ spanned (index ∘ f) l k.
Proof.
  unfold spanned. split.
  - intros (r1 & r2 & (a1 & -> & H1)%list_elem_of_fmap
                     & (a2 & -> & H2)%list_elem_of_fmap & Hk).
    by exists a1, a2.
  - intros (a1 & a2 & H1 & H2 & Hk). exists (f a1), (f a2).
    split; [apply list_elem_of_fmap; eauto|].
    split; [apply list_elem_of_fmap; eauto|]. done.
Qed.


Lemma attribute_index df grid :
  NoDup df.*1 → df ≠ [] → u_ts <$> attribute df grid = df.*1.
Proof.
  intros Hnd Hne.
  pose proof (f_equal (fmap fst) (attribute_column df grid GAS Hnd Hne)) as E.
  rewrite <- !list_fmap_compose in E. exact E.
Qed.

Lemma open_smart_meter_nil smart_meter :
  open_smart_meter smart_meter = [] ↔ smart_meter = [].
Proof.
  split; [|by intros ->]. intros E.
  pose proof (open_smart_meter_index smart_meter) as Hidx.
  rewrite E in Hidx. by destruct smart_meter.
Qed.

(** The rows of the table that [calculate_home_source_usage] returns: one
    for each week from the first home row to the last. *)
Lemma elem_of_usage_table smart_meter grid (lbl : Z) (u : source → fval) :
  NoDup smart_meter.*1 → smart_meter ≠ [] →
  (lbl, u) ∈ calculate_home_source_usage smart_meter grid ↔
  ∃ k, lbl = week_label k ∧
       u = weekly_usage_sums
             (in_week u_ts k (attribute (open_smart_meter smart_meter) grid)) ∧
       spanned fst (open_smart_meter smart_meter) k.
Proof.
  intros Hnd Hne. rewrite <- open_smart_meter_index in Hnd.
  rewrite <- open_smart_meter_nil in Hne.
  unfold calculate_home_source_usage. rewrite elem_of_resample_W.
  assert (∀ k, spanned u_ts (attribute (open_smart_meter smart_meter) grid) k ↔
               spanned fst (open_smart_meter smart_meter) k) as Hsp.
  { intros k. rewrite <- (spanned_fmap u_ts id), <- (spanned_fmap fst id).
    by rewrite attribute_index. }
  split; intros (k & ? & ? & ?); exists k; by rewrite ?Hsp in *.
Qed.

(** The table of a home file without a row: the weeks of the grid series,
    with 0 for every source. *)
Lemma elem_of_usage_table_nil grid (lbl : Z) (u : source → fval) :
  (lbl, u) ∈ calculate_home_source_usage [] grid →
  (∃ k, lbl = week_label k ∧ spanned DATETIME grid k) ∧ ∀ s, u s = Fin 0.
Proof.
  unfold calculate_home_source_usage, open_grid.
  change (open_smart_meter []) with (@nil (Z * option Qc)).
  intros (k & -> & -> & Hsp)%elem_of_resample_W. split.
  - exists k. split; [done|].
    rewrite <- (spanned_fmap u_ts id) in Hsp.
    rewrite (proj1 (attribute_nil grid)) in Hsp.
    by rewrite (spanned_fmap DATETIME id) in Hsp.
  - intros s. apply nansum_f_NaN.
    intros v (r & -> & [Hr _]%elem_of_in_week)%list_elem_of_fmap.
    by apply (proj2 (attribute_nil grid)).
Qed.


Lemma nansum_zeros {A : Type} (l : list A) :
  nansum ((λ _, Some 0) <$> l) = 0.
Proof.
  induction l as [|a l IH]; [done|]. rewrite fmap_cons, nansum_cons, IH. ring.
Qed.

Lemma nansum_plus {A : Type} (f : A → option Qc) (h : A → Qc) (l : list A) :
  nansum ((λ a, Some (default 0 (f a) + h a)) <$> l) =
  nansum (f <$> l) + nansum ((λ a, Some (h a)) <$> l).
Proof.
  induction l as [|a l IH]; [simpl; ring|].
  rewrite !fmap_cons, !nansum_cons, IH. destruct (f a); simpl; ring.
Qed.

Lemma nansum_default (l : list (option Qc)) :
  nansum ((λ c, Some (default 0 c)) <$> l) = nansum l.
Proof.
  induction l as [|[x|] l IH]; [done| |]; rewrite fmap_cons, !nansum_cons, IH;
    simpl; ring.
Qed.

(** The sum over the sources of the sums over the rows is the sum over the
    rows of the sums over the sources. *)
Lemma nansum_exchange {A C : Type} (f : A → C → option Qc)
    (la : list A) (lc : list C) :
  nansum ((λ a, Some (nansum (f a <$> lc))) <$> la) =
  nansum ((λ c, Some (nansum ((λ a, f a c) <$> la))) <$> lc).
Proof.
  induction la as [|a la IH].
  - simpl. by rewrite nansum_zeros.
  - rewrite fmap_cons, nansum_cons, IH.
    rewrite <- nansum_plus. f_equal. apply list_fmap_ext. intros _ c _.
    rewrite fmap_cons, nansum_cons. destruct (f a c); simpl; f_equal; ring.
Qed.

(** What a row is attributed of all the sources of its grid row together:
    its imports. *)
Lemma attributed_row_total (x : option Qc) (g : grid_row) :
  source_total g ≠ 0 →
  nansum ((λ s, cmul x ((λ v, v / source_total g) <$> mix g s))
            <$> GENERATION_MIX_COLUMNS) = default 0 x.
Proof.
  intros HT.
  transitivity (default 0 x * (nansum (mix g <$> GENERATION_MIX_COLUMNS)
                               / source_total g)).
  - rewrite <- nansum_div.
    induction GENERATION_MIX_COLUMNS as [|s l IH]; [simpl; ring|].
    rewrite !fmap_cons, !nansum_cons, IH.
    destruct x as [x|], (mix g s) as [m|]; simpl; ring.
  - fold (source_total g). unfold Qcdiv. rewrite Qcmult_inv_r by done. ring.
Qed.

Lemma attributed_cell (x : option Qc) (g : grid_row) s :
  source_total g ≠ 0 →
  fmul (of_cell x) (grid_mix_row g s) =
  of_cell (cmul x ((λ v, v / source_total g) <$> mix g s)).
Proof.
  intros HT. rewrite grid_mix_row_cell by done.
  by destruct x, (mix g s).
Qed.

(** The ten columns of a week together, when no grid row of the week has a
    zero total. *)
Lemma usage_columns_total s_list (common : list (option Qc * grid_row)) :
  s_list = GENERATION_MIX_COLUMNS →
  (∀ xg, xg ∈ common → source_total xg.2 ≠ 0) →
  nansum_f ((λ s, nansum_f ((λ xg : option Qc * grid_row,
                               fmul (of_cell xg.1) (grid_mix_row xg.2 s)) <$> common))
              <$> s_list) = Fin (nansum common.*1).
Proof.
  intros Hs HT.
  set (c := λ s (xg : option Qc * grid_row),
              cmul xg.1 ((λ v, v / source_total xg.2) <$> mix xg.2 s)).
  assert (∀ s, nansum_f ((λ xg : option Qc * grid_row,
                            fmul (of_cell xg.1) (grid_mix_row xg.2 s)) <$> common)
               = of_cell (Some (nansum (c s <$> common)))) as Hcol.
  { intros s. simpl. rewrite <- nansum_f_of_cell, <- list_fmap_compose.
    f_equal. apply list_fmap_ext. intros _ xg Hxg%list_elem_of_lookup_2.
    apply attributed_cell. by apply HT. }
  rewrite (list_fmap_ext _ (λ s, of_cell (Some (nansum (c s <$> common)))))
    by (intros; apply Hcol).
  transitivity (nansum_f (of_cell <$> ((λ s, Some (nansum (c s <$> common)))
                                         <$> s_list))).
  { by rewrite <- list_fmap_compose. }
  rewrite nansum_f_of_cell. f_equal.
  rewrite (nansum_exchange c).
  rewrite <- (nansum_default common.*1), <- list_fmap_compose.
  f_equal. apply list_fmap_ext. intros _ [x g] Hxg%list_elem_of_lookup_2.
  cbn [compose fst]. f_equal. rewrite Hs.
  apply attributed_row_total. by apply (HT (x, g)).
Qed.



End usage_table.

(** ** C10: the two series are combined by their labels, without a join *)

Section C10.
Local Open Scope Qc_scope.



End C10.

(** ** C5: the attribution and the imports of a week *)

Section C5.
Local Open Scope Qc_scope.




End C5.

(** * Further properties of the script *)

(** ** The cleaning, as a whole *)

Section cleaning_whole.
Local Open Scope Qc_scope.

(** The rows that stay missing are those with no valid row before them. *)
Lemma interpolate_missing_iff (y : list (option Qc)) (i : nat) :
  interpolate y !! i = Some None ↔
  y !! i = Some None ∧ ∀ a v, (a < i)%nat → y !! a ≠ Some (Some v).
Proof.
  split.
  - intros H. destruct (y !! i) as [[v|]|] eqn:E.
    + by rewrite (interpolate_valid y i v E) in H.
    + split; [done|]. intros a v Ha Hv.
      by rewrite (interpolate_after_valid y a v i Hv Ha E) in H.
    + apply lookup_ge_None in E. rewrite <- length_interpolate in E.
      apply lookup_ge_None in E. congruence.
  - intros [Hi Hno]. by apply interpolate_leading.
Qed.

(** A column whose missing rows all come first is left as it is. *)
Lemma interpolate_fixed (y : list (option Qc)) :
  (∀ i a v, y !! i = Some None → (a < i)%nat → y !! a ≠ Some (Some v)) →
  interpolate y = y.
Proof.
  intros H. apply list_eq. intros i. destruct (y !! i) as [[v|]|] eqn:E.
  - by apply interpolate_valid.
  - apply interpolate_leading; [done|]. intros a v. by apply H.
  - apply lookup_ge_None. rewrite length_interpolate. by apply lookup_ge_None.
Qed.

Lemma mask_errors_fixed (y : list (option Qc)) :
  (∀ v, Some v ∈ y → v ≤ Qc_of_Z 15) → mask_errors y = y.
Proof.
  intros H. apply list_eq. intros i. unfold mask_errors.
  rewrite list_lookup_fmap. destruct (y !! i) as [[v|]|] eqn:E; simpl; try done.
  rewrite decide_False; [done|]. apply Qcle_not_lt, H.
  by eapply list_elem_of_lookup_2.
Qed.

Lemma open_smart_meter_fixed (raw : list (Z * option Qc)) :
  (∀ v, Some v ∈ raw.*2 → v ≤ Qc_of_Z 15) →
  (∀ i a v, raw.*2 !! i = Some None → (a < i)%nat →
            raw.*2 !! a ≠ Some (Some v)) →
  open_smart_meter raw = raw.
Proof.
  intros Hle Hlead. unfold open_smart_meter, open_glow_csv.
  rewrite mask_errors_fixed, interpolate_fixed by done. apply zip_fst_snd.
Qed.

(** In a cleaned series the missing rows all come first. *)
Lemma open_smart_meter_leading (raw : list (Z * option Qc)) (i a : nat) (v : Qc) :
  (open_smart_meter raw).*2 !! i = Some None → (a < i)%nat →
  (open_smart_meter raw).*2 !! a ≠ Some (Some v).
Proof.
  rewrite open_smart_meter_imports. set (y := mask_errors raw.*2).
  intros [Hi Hno]%interpolate_missing_iff Ha Hv.
  destruct (y !! a) as [[u|]|] eqn:E.
  - by destruct (Hno a u Ha).
  - assert (interpolate y !! a = Some None) as Hn; [|congruence].
    apply interpolate_missing_iff. split; [done|].
    intros b w Hb. apply Hno. lia.
  - apply lookup_ge_None in E. apply lookup_lt_Some in Hi. lia.
Qed.

(** X1.  A series with no reading above 15, whose missing readings all come
    before its first reading, is returned by the cleaning as it is. *)
Theorem cleaning_fixed_point (raw : series cell) :
  (∀ v, Some v ∈ raw.*2 → v ≤ Qc_of_Z 15) →
  (∀ i a v, raw.*2 !! i = Some None → (a < i)%nat →
            raw.*2 !! a ≠ Some (Some v)) →
  open_smart_meter raw = raw.
Proof.
  intros Hle Hlead. unfold open_smart_meter, open_glow_csv.
  rewrite mask_errors_fixed by done.
  rewrite interpolate_fixed by done.
  apply zip_fst_snd.
Qed.

Lemma cleaning_fixed_point_witness : open_smart_meter raw_clean = raw_clean.
Proof.
  apply cleaning_fixed_point.
  - intros v [i Hi]%list_elem_of_lookup.
    destruct i as [|[|[|i]]]; simpl in Hi; try discriminate;
      injection Hi as <-; by_compute.
  - intros i a v Hi Ha.
    destruct i as [|[|[|i]]]; simpl in Hi; try discriminate. lia.
Defined.

(** X2.  Cleaning a cleaned series changes nothing. *)
Theorem cleaning_idempotent (raw : series cell) :
  open_smart_meter (open_smart_meter raw) = open_smart_meter raw.
Proof.
  apply open_smart_meter_fixed.
  - apply open_smart_meter_le_15.
  - intros i a v. apply open_smart_meter_leading.
Qed.

(** X3.  A row of the cleaned series is missing exactly when neither it nor
    any row before it has a reading of at most 15: the cleaning leaves no
    gap after the first reading it keeps, and fills nothing before it. *)
Theorem cleaned_missing_iff (raw : series cell) (i : nat) :
  (open_smart_meter raw).*2 !! i = Some None ↔
  (i < length raw)%nat ∧
  ∀ a v, (a ≤ i)%nat → raw.*2 !! a = Some (Some v) → Qc_of_Z 15 < v.
Proof.
  rewrite open_smart_meter_imports, interpolate_missing_iff. split.
  - intros [Hi Hno]. split.
    { apply lookup_lt_Some in Hi. unfold mask_errors in Hi.
      by rewrite !length_fmap in Hi. }
    intros a v Ha Hv. apply Qcnot_le_lt. intros Hle.
    assert (mask_errors raw.*2 !! a = Some (Some v)) as Hm
      by by apply mask_errors_valid.
    destruct (decide (a = i)) as [->|Hne]; [congruence|].
    apply (Hno a v); [lia | done].
  - intros [Hi Hgt]. split.
    + apply mask_errors_missing.
      destruct (raw.*2 !! i) as [[v|]|] eqn:E.
      * right. exists v. split; [done|]. by apply (Hgt i).
      * by left.
      * apply lookup_ge_None in E. rewrite length_fmap in E. lia.
    + intros a v Ha [Hv Hle]%mask_errors_valid.
      apply (Qcle_not_lt _ _ Hle), (Hgt a); [lia | done].
Qed.

Lemma cleaned_missing_iff_witness :
  (open_smart_meter raw_leading).*2 !! 0%nat = Some None.
Proof.
  apply cleaned_missing_iff. split; [simpl; lia|].
  intros a v Ha Hv. assert (a = 0%nat) as -> by lia.
  injection Hv as <-. by_compute.
Defined.

(** X4.  The cleaning never overshoots: bounds that hold for the readings
    it keeps (those of at most 15) hold for every value it returns. *)
Theorem cleaning_within_range (raw : series cell) (lo hi v : Qc) :
  (∀ u, Some u ∈ raw.*2 → u ≤ Qc_of_Z 15 → lo ≤ u ∧ u ≤ hi) →
  Some v ∈ (open_smart_meter raw).*2 → lo ≤ v ∧ v ≤ hi.
Proof.
  intros Hraw. rewrite open_smart_meter_imports. revert v.
  apply (interpolate_closed (λ v, lo ≤ v ∧ v ≤ hi)).
  - intros y0 y1 t Ht0 Ht1 [? ?] [? ?].
    split; [by apply segment_ge | by apply segment_le].
  - intros u [i Hi]%list_elem_of_lookup.
    apply mask_errors_valid in Hi as [Hi Hu].
    apply Hraw; [|done]. by eapply list_elem_of_lookup_2.
Qed.

Lemma cleaning_within_range_witness :
  Qc_of_Z 1 ≤ Qc_of_Z 2 ∧ Qc_of_Z 2 ≤ Qc_of_Z 4.
Proof.
  apply (cleaning_within_range raw_inner); [|by_compute].
  intros u [i Hi]%list_elem_of_lookup Hu.
  destruct i as [|[|[|[|i]]]]; simpl in Hi; try discriminate;
    injection Hi as <-;
    first [ by (split; by_compute) | exfalso; revert Hu; by_compute ].
Defined.

End cleaning_whole.

(** ** The weekly tables, as a whole *)

Section weekly_whole.
Local Open Scope Z_scope.

(** The weeks of a weekly table are a run of consecutive weeks, those from
    the week of the earliest row to that of the latest. *)
Lemma resample_W_weeks {A B : Type} (index : A → Z) (agg : list A → B)
    (rows : list A) :
  ∃ m n, resample_W index agg rows =
           (λ k, (week_label k, agg (in_week index k rows))) <$> seqZ m n ∧
         ∀ k, k ∈ seqZ m n ↔ spanned index rows k.
Proof.
  destruct rows as [|r rs] eqn:Erows.
  { exists 0, 0. split; [done|]. intros k. split; [by intros ?%elem_of_nil|].
    by intros (r1 & _ & ?%elem_of_nil & _). }
  rewrite <- Erows.
  set (first := foldr Z.min (index r) (index <$> rs)).
  set (last := foldr Z.max (index r) (index <$> rs)).
  exists (week_of first), (week_of last - week_of first + 1).
  assert (resample_W index agg rows =
          (λ k, (week_label k, agg (in_week index k rows)))
            <$> seqZ (week_of first) (week_of last - week_of first + 1)) as E.
  { by rewrite Erows. }
  split; [done|]. intros k. split.
  - intros Hk.
    assert ((week_label k, agg (in_week index k rows)) ∈ resample_W index agg rows)
      as Hin by (rewrite E; apply list_elem_of_fmap; eauto).
    apply elem_of_resample_W in Hin as (k0 & Hl & _ & Hsp).
    by apply week_label_inj in Hl as ->.
  - intros Hsp.
    assert ((week_label k, agg (in_week index k rows)) ∈ resample_W index agg rows)
      as Hin by (apply elem_of_resample_W; eauto).
    rewrite E in Hin. apply list_elem_of_fmap in Hin as (k' & [= Hl _] & Hk').
    by apply week_label_inj in Hl as ->.
Qed.

(** The labels of a weekly table: seven days apart, none twice. *)
Lemma resample_W_spaced {A B : Type} (index : A → Z) (agg : list A → B)
    (rows : list A) :
  weekly_spaced (resample_W index agg rows).*1 ∧
  NoDup (resample_W index agg rows).*1.
Proof.
  destruct (resample_W_weeks index agg rows) as (m & n & -> & _).
  rewrite <- list_fmap_compose.
  change (fst ∘ _) with week_label. split.
  - intros i l l'. rewrite !list_lookup_fmap.
    destruct (seqZ m n !! i) as [k|] eqn:E1; [|done].
    destruct (seqZ m n !! S i) as [k'|] eqn:E2; [|done].
    apply lookup_seqZ in E1 as [-> _]. apply lookup_seqZ in E2 as [-> _].
    simpl. intros [= <-] [= <-]. unfold week_label. lia.
  - apply NoDup_fmap; [|apply NoDup_seqZ].
    intros k1 k2. apply week_label_inj.
Qed.


Local Open Scope Qc_scope.




End weekly_whole.

Section carbon_mix_whole.
Local Open Scope Qc_scope.

(** X5.  The timestamps of each file being distinct, and each file having
    a row: the labels of the two weekly tables are seven days apart, in
    increasing order, and none comes twice; every joined row has its week
    in the table of [carbon_mix], and every home row has its week in the
    table of [calculate_home_source_usage], whether the grid has its
    timestamp or not. *)
Theorem weekly_tables_spaced (smart_meter : series cell) (grid : list grid_row) :
  NoDup smart_meter.*1 → NoDup (DATETIME <$> grid) →
  smart_meter ≠ [] → grid ≠ [] →
  let weekly := df_weekly (carbon_mix smart_meter grid) in
  let usage := calculate_home_source_usage smart_meter grid in
  weekly_spaced weekly.*1 ∧ NoDup weekly.*1 ∧
  (∀ r, r ∈ joined smart_meter grid → week_label (week_of (ts r)) ∈ weekly.*1) ∧
  weekly_spaced usage.*1 ∧ NoDup usage.*1 ∧
  (∀ t, t ∈ smart_meter.*1 → week_label (week_of t) ∈ usage.*1).
Proof.
  intros Hh _ Hne _ weekly usage.
  destruct (resample_W_spaced ts weekly_sums (joined smart_meter grid)) as [H1 H2].
  destruct (resample_W_spaced u_ts weekly_usage_sums
              (attribute (open_smart_meter smart_meter) (open_grid grid)))
    as [H3 H4].
  split; [done|]. split; [done|]. split; [|split; [done|split; [done|]]].
  - intros r Hr. apply list_elem_of_fmap.
    exists (week_label (week_of (ts r)),
            weekly_sums (in_week ts (week_of (ts r)) (joined smart_meter grid))).
    split; [done|]. apply elem_of_resample_W. exists (week_of (ts r)).
    split; [done|]. split; [done|]. exists r, r.
    split; [done|]. split; [done|]. lia.
  - intros t Ht.
    assert (t ∈ u_ts <$> attribute (open_smart_meter smart_meter) (open_grid grid))
      as (u & -> & Hu)%list_elem_of_fmap.
    { rewrite attribute_index, open_smart_meter_index; [done| |].
      - by rewrite open_smart_meter_index.
      - by rewrite open_smart_meter_nil. }
    apply list_elem_of_fmap.
    exists (week_label (week_of (u_ts u)),
            weekly_usage_sums
              (in_week u_ts (week_of (u_ts u))
                 (attribute (open_smart_meter smart_meter) (open_grid grid)))).
    split; [done|]. apply elem_of_resample_W. exists (week_of (u_ts u)).
    split; [done|]. split; [done|]. exists u, u.
    split; [done|]. split; [done|]. lia.
Qed.

Lemma weekly_tables_spaced_witness :
  week_label (week_of (days 20)) ∈ (calculate_home_source_usage home_far grid_one).*1 ∧
  (df_weekly (carbon_mix home_far grid_one)).*1 = [week_label 1] ∧
  (calculate_home_source_usage home_far grid_one).*1 =
    [week_label 1; week_label 1 + 7 * ns_per_day;
     week_label 1 + 14 * ns_per_day]%Z.
Proof.
  destruct (weekly_tables_spaced home_far grid_one)
    as (_ & _ & Hjoined & Hsp & _ & H); [by_compute | by_compute | done | done |].
  split; [apply H; by_compute|]. split.
  - assert (week_label (week_of (days 5))
            ∈ (df_weekly (carbon_mix home_far grid_one)).*1) as Hin.
    { apply (Hjoined (with_carbon (days 5, num 1, mix_at (days 5) 1 3))).
      unfold joined. apply list_elem_of_fmap. eexists. split; [done|].
      apply elem_of_join_inner. split; [by_compute|]. split; [left | done]. }
    revert Hin. by_compute.
  - assert (length (calculate_home_source_usage home_far grid_one).*1 = 3%nat)
      as Hlen by by_compute.
    destruct ((calculate_home_source_usage home_far grid_one).*1)
      as [|l0 [|l1 [|l2 [|]]]] eqn:E; try discriminate.
    pose proof (Hsp 0%nat l0 l1 eq_refl eq_refl) as ->.
    pose proof (Hsp 1%nat _ l2 eq_refl eq_refl) as ->.
    assert (l0 = week_label 1) as ->.
    { assert (head (calculate_home_source_usage home_far grid_one).*1
              = Some (week_label 1)) as Hhd by by_compute.
      rewrite E in Hhd. by injection Hhd. }
    by replace (week_label 1 + 14 * ns_per_day)%Z
      with (week_label 1 + 7 * ns_per_day + 7 * ns_per_day)%Z by lia.
Defined.


(** A load-weighted average of intensities lies where the intensities
    lie, when no load is negative. *)
Lemma weighted_sums_bounds (energy : row → option Qc) (rows : list row) (lo hi : Qc) :
  (∀ r, r ∈ rows → ∃ c, carbon_intensity r = Some c ∧ lo ≤ c ∧ c ≤ hi) →
  (∀ r x, r ∈ rows → energy r = Some x → 0 ≤ x) →
  lo * nansum (energy <$> rows)
    ≤ nansum ((λ r, cmul (energy r) (carbon_intensity r)) <$> rows) ∧
  nansum ((λ r, cmul (energy r) (carbon_intensity r)) <$> rows)
    ≤ hi * nansum (energy <$> rows).
Proof.
  induction rows as [|r rows IH]; intros Hc Hx.
  - simpl. rewrite !Qcmult_0_r. done.
  - destruct IH as [IH1 IH2].
    { intros; apply Hc; by right. } { intros r' x ?; apply Hx; by right. }
    rewrite !fmap_cons, !nansum_cons.
    destruct (Hc r) as (c & -> & Hlo & Hhi); [left|].
    destruct (energy r) as [x|] eqn:E; simpl; [|done].
    assert (0 ≤ x) as H0 by (apply (Hx r); [left | done]).
    split.
    + replace (lo * (x + nansum (energy <$> rows)))
        with (x * lo + lo * nansum (energy <$> rows)) by ring.
      apply Qcplus_le_compat; [by apply Qcmult_le_mono_nonneg_l | done].
    + replace (hi * (x + nansum (energy <$> rows)))
        with (x * hi + hi * nansum (energy <$> rows)) by ring.
      apply Qcplus_le_compat; [by apply Qcmult_le_mono_nonneg_l | done].
Qed.

Lemma weighted_bounds (energy : row → option Qc) (rows : list row) (lo hi : Qc) :
  (∀ r, r ∈ rows → ∃ c, carbon_intensity r = Some c ∧ lo ≤ c ∧ c ≤ hi) →
  (∀ r x, r ∈ rows → energy r = Some x → 0 ≤ x) →
  nansum (energy <$> rows) ≠ 0 →
  ∃ a, weighted energy rows = Fin a ∧ lo ≤ a ∧ a ≤ hi.
Proof.
  intros Hc Hx HX.
  destruct (weighted_sums_bounds energy rows lo hi Hc Hx) as [H1 H2].
  set (X := nansum (energy <$> rows)) in *.
  set (H := nansum ((λ r, cmul (energy r) (carbon_intensity r)) <$> rows)) in *.
  assert (0 < X) as Hpos.
  { assert (0 ≤ X) as Hge.
    { apply nansum_nonneg. intros x (r & Hr & Hin)%list_elem_of_fmap. by eapply Hx. }
    destruct (Qcle_lt_or_eq _ _ Hge) as [?|E]; [done | by destruct HX]. }
  exists (H / X). split; [unfold weighted; by apply fdiv_Fin|].
  assert (H / X * X = H) as E.
  { unfold Qcdiv. rewrite <- Qcmult_assoc, Qcmult_inv_l by done. ring. }
  split; apply (Qcmult_le_mono_pos_r _ _ X Hpos); rewrite E; done.
Qed.

(** X7.  The averages lie where the intensities lie: when every joined row
    has an intensity between [lo] and [hi], and no import is negative, the
    home average and the home intensity of every week with imports lie
    between [lo] and [hi]; the same holds of the grid's when no generation
    is negative. *)
Theorem average_within_intensity_range (smart_meter : series cell)
    (grid : list grid_row) (lo hi : Qc) :
  let df := joined smart_meter grid in
  let report := carbon_mix smart_meter grid in
  (∀ r, r ∈ df → ∃ c, carbon_intensity r = Some c ∧ lo ≤ c ∧ c ≤ hi) →
  ((∀ r x, r ∈ df → imports r = Some x → 0 ≤ x) →
   (nansum (imports <$> df) ≠ 0 →
    ∃ a, home_avg report = Fin a ∧ lo ≤ a ∧ a ≤ hi) ∧
   (∀ lbl w, (lbl, w) ∈ df_weekly report → w_imports w ≠ 0 →
    ∃ a, home_carbon_intensity w = Fin a ∧ lo ≤ a ∧ a ≤ hi)) ∧
  ((∀ r x, r ∈ df → grid_generation r = Some x → 0 ≤ x) →
   (nansum (grid_generation <$> df) ≠ 0 →
    ∃ a, grid_avg report = Fin a ∧ lo ≤ a ∧ a ≤ hi) ∧
   (∀ lbl w, (lbl, w) ∈ df_weekly report → w_grid_generation w ≠ 0 →
    ∃ a, grid_carbon_intensity w = Fin a ∧ lo ≤ a ∧ a ≤ hi)).
Proof.
  intros df report Hc.
  assert (Forall (λ r, home_carbon r = cmul (imports r) (carbon_intensity r) ∧
                       grid_carbon r = cmul (grid_generation r) (carbon_intensity r))
                 df) as HF.
  { apply Forall_forall. intros r Hr. by eapply joined_products. }
  assert (home_avg report = weighted imports df) as Eh.
  { unfold weighted, report, carbon_mix. cbn [home_avg grid_avg].
    do 3 f_equal. apply Forall_fmap_ext_1.
    eapply Forall_impl; [exact HF|]. by intros r [? ?]. }
  assert (grid_avg report = weighted grid_generation df) as Eg.
  { unfold weighted, report, carbon_mix. cbn [home_avg grid_avg].
    do 3 f_equal. apply Forall_fmap_ext_1.
    eapply Forall_impl; [exact HF|]. by intros r [? ?]. }
  split; intros Hx; split.
  - intros HX. rewrite Eh. by apply weighted_bounds.
  - intros lbl w (k & -> & -> & _)%elem_of_df_weekly HX.
    destruct (weekly_sums_weighted smart_meter grid k) as [-> _].
    apply weighted_bounds; [| |done].
    + intros r [Hr _]%elem_of_in_week. by apply Hc.
    + intros r x [Hr _]%elem_of_in_week. by apply Hx.
  - intros HX. rewrite Eg. by apply weighted_bounds.
  - intros lbl w (k & -> & -> & _)%elem_of_df_weekly HX.
    destruct (weekly_sums_weighted smart_meter grid k) as [_ ->].
    apply weighted_bounds; [| |done].
    + intros r [Hr _]%elem_of_in_week. by apply Hc.
    + intros r x [Hr _]%elem_of_in_week. by apply Hx.
Qed.

Lemma average_within_intensity_range_witness :
  ∃ a, home_avg (carbon_mix home_123 grid_123) = Fin a ∧
       Qc_of_Z 10 ≤ a ∧ a ≤ Qc_of_Z 30.
Proof.
  pose proof (average_within_intensity_range home_123 grid_123
                (Qc_of_Z 10) (Qc_of_Z 30)) as H0.
  cbv zeta in H0. destruct H0 as [[H _] _].
  - apply Forall_forall.
    assert (Forall (λ r, ∃ c, carbon_intensity r = Some c ∧
                              Qc_of_Z 10 ≤ c ∧ c ≤ Qc_of_Z 30)
              (joined home_123 grid_123)) as HF; [|exact HF].
    unfold joined. apply Forall_fmap, Forall_forall.
    intros [[t x] g] (_ & Hg & _)%elem_of_join_inner. simpl.
    unfold open_grid, grid_123 in Hg.
    repeat (apply elem_of_cons in Hg as [->|Hg]);
      [| | |by apply elem_of_nil in Hg]; eexists; (split; [reflexivity|]);
      split; by_compute.
  - assert (Forall (λ r, match imports r with
                         | Some x => bool_decide (0 ≤ x)
                         | None => true
                         end = true) (joined home_123 grid_123)) as HF by by_compute.
    rewrite Forall_forall in HF. intros r x Hr Hx. specialize (HF r Hr).
    rewrite Hx in HF. by apply bool_decide_eq_true in HF.
  - apply H. by_compute.
Defined.

End carbon_mix_whole.

(** ** The join, as a whole *)

Section join_whole.
Local Open Scope Qc_scope.

Lemma join_inner_home_rows (df : list (Z * option Qc)) (grid : list grid_row) :
  NoDup (DATETIME <$> grid) →
  (λ j : Z * option Qc * grid_row, j.1) <$> join_inner df grid =
  filter (λ p, p.1 ∈ DATETIME <$> grid) df.
Proof.
  intros Hg. induction df as [|[t x] df IH]; [done|].
  rewrite join_inner_cons, fmap_app, IH, filter_cons. simpl.
  pose proof (filter_label_unique grid t Hg) as Hlen.
  destruct (decide (t ∈ DATETIME <$> grid)) as [Hin|Hni].
  - destruct (filter (λ g, DATETIME g = t) grid) as [|g [|g' l]]; done.
  - by destruct (filter (λ g, DATETIME g = t) grid).
Qed.

Lemma join_inner_disjoint (df : list (Z * option Qc)) (grid : list grid_row) :
  (∀ t, t ∈ df.*1 → t ∉ DATETIME <$> grid) → join_inner df grid = [].
Proof.
  intros H. destruct (join_inner df grid) as [|[[t x] g] l] eqn:E; [done|].
  assert ((t, x, g) ∈ join_inner df grid) as Hin by (rewrite E; left).
  apply elem_of_join_inner in Hin as (Hp & Hg & Ht).
  destruct (H t).
  - apply list_elem_of_fmap. by exists (t, x).
  - apply list_elem_of_fmap. by exists g.
Qed.

(** X8.  When the two files, each with a row at least, share no timestamp,
    [carbon_mix] has nothing to average: the weekly table is empty, both averages are NaN (0 over 0),
    and the two lines printed say [nan]; nothing raises. *)
Theorem carbon_mix_without_common_timestamp (smart_meter : series cell)
    (grid : list grid_row) :
  smart_meter ≠ [] → grid ≠ [] →
  (∀ t, t ∈ smart_meter.*1 → t ∉ DATETIME <$> grid) →
  let report := carbon_mix smart_meter grid in
  df_weekly report = [] ∧ home_avg report = NaN ∧ grid_avg report = NaN ∧
  stdout report = [ "Home Average Carbon Intensity: nan g/kWh";
                    "Grid Average Carbon Intensity: nan g/kWh" ].
Proof.
  intros _ _ H report.
  assert (joined smart_meter grid = []) as E.
  { unfold joined. rewrite join_inner_disjoint; [done|].
    by rewrite open_smart_meter_index. }
  unfold report, carbon_mix. rewrite E. done.
Qed.

Lemma carbon_mix_without_common_timestamp_witness :
  stdout (carbon_mix home_two grid_later) =
    [ "Home Average Carbon Intensity: nan g/kWh";
      "Grid Average Carbon Intensity: nan g/kWh" ].
Proof.
  apply (carbon_mix_without_common_timestamp home_two grid_later);
    [done | done |].
  apply Forall_forall. by_compute.
Defined.

(** X9.  With distinct timestamps in the grid file, the join keeps the
    rows of the cleaned home series whose timestamp the grid has, each
    once and in the order of the home file; it keeps them all when the
    grid has every timestamp of the home file. *)
Theorem join_keeps_home_rows (smart_meter : series cell) (grid : list grid_row) :
  NoDup (DATETIME <$> grid) →
  (λ r, (ts r, imports r)) <$> joined smart_meter grid =
    filter (λ p, p.1 ∈ DATETIME <$> grid) (open_smart_meter smart_meter) ∧
  ((∀ t, t ∈ smart_meter.*1 → t ∈ DATETIME <$> grid) →
   (λ r, (ts r, imports r)) <$> joined smart_meter grid =
     open_smart_meter smart_meter).
Proof.
  intros Hg.
  assert ((λ r, (ts r, imports r)) <$> joined smart_meter grid =
          filter (λ p, p.1 ∈ DATETIME <$> grid) (open_smart_meter smart_meter))
    as E.
  { rewrite <- (join_inner_home_rows _ grid Hg). unfold joined, open_grid.
    rewrite <- list_fmap_compose. apply list_fmap_ext. by intros _ [[t x] g] _. }
  split; [done|]. intros Hall. rewrite E. clear E.
  rewrite <- open_smart_meter_index in Hall.
  induction (open_smart_meter smart_meter) as [|p l IH]; [done|].
  rewrite filter_cons, decide_True by (apply Hall; left).
  f_equal. apply IH. intros t Ht. apply Hall. by right.
Qed.

Lemma join_keeps_home_rows_witness :
  (λ r, (ts r, imports r)) <$> joined home_121 grid_shifted =
    [(days 6, num 2); (days 7, num 1)] ∧
  (λ r, (ts r, imports r)) <$> joined home_121 grid_121 = home_121.
Proof.
  split.
  - rewrite (proj1 (join_keeps_home_rows home_121 grid_shifted
                      ltac:(by_compute))).
    by_compute.
  - rewrite (proj2 (join_keeps_home_rows home_121 grid_121 ltac:(by_compute))).
    + by_compute.
    + apply Forall_forall. by_compute.
Defined.

End join_whole.

(** ** The chart of the sources *)

Section chart.
Local Open Scope Qc_scope.

(** The chart has each of the ten sources once. *)
Lemma stacked_columns_permutation : stacked_columns ≡ₚ GENERATION_MIX_COLUMNS.
Proof.
  apply NoDup_Permutation; [by_compute | by_compute |].
  intros s. split; intros _; destruct s; by_compute.
Qed.

Lemma nansum_f_step_comm (a b acc : fval) :
  (if is_nan a then (if is_nan b then acc else fadd b acc)
   else fadd a (if is_nan b then acc else fadd b acc)) =
  (if is_nan b then (if is_nan a then acc else fadd a acc)
   else fadd b (if is_nan a then acc else fadd a acc)).
Proof. destruct a, b, acc; simpl; try reflexivity; f_equal; ring. Qed.

(** The sum of a row does not depend on the order of its columns. *)
Lemma nansum_f_Permutation (l k : list fval) : l ≡ₚ k → nansum_f l = nansum_f k.
Proof.
  induction 1 as [|v l k _ IH|a b l|l k m _ IH1 _ IH2].
  - done.
  - by rewrite !nansum_f_cons, IH.
  - rewrite !nansum_f_cons. apply nansum_f_step_comm.
  - by rewrite IH1.
Qed.

(** X10.  The chart is the usage table with its columns rearranged: it has
    the same weeks in the same order, and for each week the ten values of
    the table, each source once, so that the height of the stack is the
    sum of the ten columns of the table. *)
Theorem plot_stacked_area_rearranges (weekly_usage : list (Z * (source → fval))) :
  Forall2 (λ p q, q.1 = p.1 ∧ length q.2 = 10%nat ∧
                  q.2 ≡ₚ p.2 <$> GENERATION_MIX_COLUMNS ∧
                  nansum_f q.2 = nansum_f (p.2 <$> GENERATION_MIX_COLUMNS))
          weekly_usage (plot_stacked_area weekly_usage).
Proof.
  unfold plot_stacked_area. apply Forall2_fmap_r, Forall_Forall2_diag.
  apply Forall_forall. intros [lbl u] _. cbn [fst snd compose].
  assert (u <$> stacked_columns ≡ₚ u <$> GENERATION_MIX_COLUMNS) as HP
    by (by rewrite stacked_columns_permutation).
  split; [done|]. split; [done|]. split; [done|].
  by apply nansum_f_Permutation.
Qed.

(** In a week whose grid rows have totals that are not zero, a column of
    the usage table is a number: the sum of imports times fraction. *)
Lemma usage_column_number (df : list (Z * option Qc)) (grid : list grid_row)
    (k : Z) (s : source) :
  NoDup df.*1 →
  (∀ xg, xg ∈ common_rows df grid k → source_total xg.2 ≠ 0) →
  weekly_usage_sums (in_week u_ts k (attribute df grid)) s =
  Fin (nansum ((λ xg : option Qc * grid_row,
                  cmul xg.1 ((λ v, v / source_total xg.2) <$> mix xg.2 s))
                 <$> common_rows df grid k)).
Proof.
  intros Hnd HT. rewrite weekly_usage_attributed by done.
  rewrite attributed_common. fold (common_rows df grid k).
  rewrite <- nansum_f_of_cell, <- list_fmap_compose. f_equal.
  apply list_fmap_ext. intros _ xg Hxg%list_elem_of_lookup_2.
  apply attributed_cell. by apply HT.
Qed.

Lemma usage_week_total (df : list (Z * option Qc)) (grid : list grid_row) (k : Z) :
  NoDup df.*1 →
  (∀ xg, xg ∈ common_rows df grid k → source_total xg.2 ≠ 0) →
  nansum_f (weekly_usage_sums (in_week u_ts k (attribute df grid))
              <$> GENERATION_MIX_COLUMNS)
  = Fin (nansum (common_rows df grid k).*1).
Proof.
  intros Hnd HT.
  rewrite <- (usage_columns_total GENERATION_MIX_COLUMNS) by done.
  f_equal. apply list_fmap_ext. intros _ s _.
  rewrite weekly_usage_attributed by done. apply attributed_common.
Qed.

Lemma nansum_f_zeros {A : Type} (f : A → fval) (l : list A) :
  (∀ a, f a = Fin 0) → nansum_f (f <$> l) = Fin 0.
Proof.
  intros H. induction l as [|a l IH]; [done|].
  rewrite fmap_cons, nansum_f_cons, H, IH. by_compute.
Qed.

(** X11.  [energy_sources] draws, for each week, a stack whose values add
    up to the imports of the rows of that week whose timestamp the grid
    has (the timestamps of each file being distinct, and the ten sources
    of the grid rows of the week not summing to zero). *)
Theorem energy_sources_stack_total (smart_meter : series cell)
    (grid : list grid_row) (k : Z) (values : list fval) :
  NoDup smart_meter.*1 → NoDup (DATETIME <$> grid) →
  (∀ xg, xg ∈ common_rows (open_smart_meter smart_meter) grid k →
         source_total xg.2 ≠ 0) →
  (week_label k, values) ∈ energy_sources smart_meter grid →
  nansum_f values =
    Fin (nansum (common_rows (open_smart_meter smart_meter) grid k).*1).
Proof.
  intros Hh _ HT Hin. unfold energy_sources, plot_stacked_area in Hin.
  apply list_elem_of_fmap in Hin as ([lbl u] & Heq & Hu).
  assert (lbl = week_label k ∧ values = u <$> stacked_columns) as [-> ->]
    by (by inversion Heq).
  clear Heq. destruct (decide (smart_meter = [])) as [->|Hne].
  { apply elem_of_usage_table_nil in Hu as [_ Hu].
    by apply nansum_f_zeros. }
  apply elem_of_usage_table in Hu as (k' & Hl & -> & _); [|done..].
  apply week_label_inj in Hl as <-.
  assert (NoDup (open_smart_meter smart_meter).*1) as Hdf
    by by rewrite open_smart_meter_index.
  rewrite <- (usage_week_total _ grid k Hdf HT).
  apply nansum_f_Permutation. by rewrite stacked_columns_permutation.
Qed.

Lemma energy_sources_stack_total_witness :
  let df := open_smart_meter home_two in
  let u := weekly_usage_sums (in_week u_ts 1 (attribute df grid_one)) in
  nansum_f (u <$> stacked_columns) = Fin (nansum (common_rows df grid_one 1).*1).
Proof.
  intros df u.
  apply (energy_sources_stack_total home_two grid_one 1); [by_compute..| |].
  - intros [x g] Hxg.
    assert (g = mix_at (days 5) 1 3) as ->; [|by_compute].
    unfold common_rows in Hxg. apply list_elem_of_omap in Hxg as (p & _ & Hp).
    destruct (head (filter (λ g, DATETIME g = p.1) grid_one)) as [g'|] eqn:E;
      [|done]. injection Hp as _ <-.
    apply head_Some_elem_of in E. apply list_elem_of_filter in E as [_ E].
    by apply list_elem_of_singleton in E.
  - unfold energy_sources, plot_stacked_area. apply list_elem_of_fmap.
    exists (week_label 1, u). split; [done|].
    apply elem_of_usage_table; [by_compute | done |].
    exists 1%Z. split; [done|]. split; [done|].
    exists (days 5, num 1), (days 6, num 2). repeat split; by_compute.
Defined.

End chart.

(** ** The usage table, as a whole *)

Section usage_whole.
Local Open Scope Qc_scope.

Lemma nansum_le_pointwise {A : Type} (f g : A → option Qc) (l : list A) :
  (∀ a, a ∈ l → default 0 (f a) ≤ default 0 (g a)) →
  nansum (f <$> l) ≤ nansum (g <$> l).
Proof.
  induction l as [|a l IH]; intros H; [done|].
  assert (nansum (f <$> l) ≤ nansum (g <$> l)) as IH'
    by (apply IH; intros; apply H; by right).
  assert (default 0 (f a) ≤ default 0 (g a)) as Ha by (apply H; left).
  rewrite !fmap_cons, !nansum_cons.
  replace (match f a with Some x => x + nansum (f <$> l) | None => nansum (f <$> l) end)
    with (default 0 (f a) + nansum (f <$> l)) by (destruct (f a); simpl; ring).
  replace (match g a with Some x => x + nansum (g <$> l) | None => nansum (g <$> l) end)
    with (default 0 (g a) + nansum (g <$> l)) by (destruct (g a); simpl; ring).
  by apply Qcplus_le_compat.
Qed.

(** A value of a column of non-negative values is at most their sum. *)
Lemma nansum_ge_elem (l : list (option Qc)) (m : Qc) :
  (∀ x, Some x ∈ l → 0 ≤ x) → Some m ∈ l → m ≤ nansum l.
Proof.
  induction l as [|c l IH]; intros Hpos Hin; [by apply elem_of_nil in Hin|].
  assert (0 ≤ nansum l) as Hl
    by (apply nansum_nonneg; intros; apply Hpos; by right).
  rewrite nansum_cons. apply elem_of_cons in Hin as [<-|Hin].
  - rewrite <- (Qcplus_0_r m) at 1. by apply Qcplus_le_compat.
  - assert (m ≤ nansum l) as Hm by (apply IH; [intros; apply Hpos; by right|done]).
    destruct c as [x|]; [|done].
    assert (0 ≤ x) by (apply Hpos; left).
    rewrite <- (Qcplus_0_l m). by apply Qcplus_le_compat.
Qed.

Lemma all_sources (s : source) : s ∈ GENERATION_MIX_COLUMNS.
Proof. destruct s; by_compute. Qed.

(** A fraction of a row of non-negative columns lies between 0 and 1. *)
Lemma fraction_unit (g : grid_row) (s : source) (m : Qc) :
  (∀ s' m', mix g s' = Some m' → 0 ≤ m') → source_total g ≠ 0 →
  mix g s = Some m →
  0 ≤ m / source_total g ∧ m / source_total g ≤ 1.
Proof.
  intros Hpos HT Hm.
  assert (∀ x, Some x ∈ mix g <$> GENERATION_MIX_COLUMNS → 0 ≤ x) as Hall.
  { intros x (s' & Hs' & _)%list_elem_of_fmap. by eapply Hpos. }
  assert (0 ≤ source_total g) as HT0 by by apply nansum_nonneg.
  assert (0 < source_total g) as HTpos.
  { destruct (Qcle_lt_or_eq _ _ HT0) as [?|E]; [done | by destruct HT]. }
  assert (m ≤ source_total g) as Hle.
  { apply nansum_ge_elem; [done|]. apply list_elem_of_fmap.
    exists s. split; [done | apply all_sources]. }
  pose proof (Qcinv_pos _ HTpos) as Hinv. unfold Qcdiv. split.
  - apply Qcmult_nonneg_nonneg; [by eapply Hpos | exact (Qclt_le_weak _ _ Hinv)].
  - rewrite <- (Qcmult_inv_r (source_total g)) by done.
    apply Qcmult_le_mono_nonneg_r; [exact (Qclt_le_weak _ _ Hinv) | done].
Qed.

(** X12.  When no import and no source column of the week is negative (the
    timestamps of each file being distinct, and the ten sources of the
    grid rows of the week not summing to zero), what a week is attributed
    of a source is a number between 0 and the imports of the rows of that
    week whose timestamp the grid has. *)
Theorem usage_within_imports (smart_meter : series cell) (grid : list grid_row)
    (k : Z) (s : source) :
  NoDup smart_meter.*1 → NoDup (DATETIME <$> grid) →
  let df := open_smart_meter smart_meter in
  (∀ xg, xg ∈ common_rows df grid k →
     source_total xg.2 ≠ 0 ∧
     (∀ s' m, mix xg.2 s' = Some m → 0 ≤ m) ∧
     (∀ x, xg.1 = Some x → 0 ≤ x)) →
  ∃ a, weekly_usage_sums (in_week u_ts k (attribute df grid)) s = Fin a ∧
       0 ≤ a ∧ a ≤ nansum (common_rows df grid k).*1.
Proof.
  intros Hh _ df Hrows.
  assert (NoDup df.*1) as Hdf by (unfold df; by rewrite open_smart_meter_index).
  eexists. split.
  { apply usage_column_number; [done|]. intros xg Hxg. by apply Hrows. }
  assert (∀ xg, xg ∈ common_rows df grid k →
            0 ≤ default 0 (cmul xg.1 ((λ v, v / source_total xg.2) <$> mix xg.2 s)) ∧
            default 0 (cmul xg.1 ((λ v, v / source_total xg.2) <$> mix xg.2 s))
              ≤ default 0 xg.1) as Hpt.
  { intros [x g] Hxg. destruct (Hrows _ Hxg) as (HT & Hm & Hx). simpl in *.
    destruct x as [x|]; [|done].
    assert (0 ≤ x) as Hx0 by by apply Hx.
    destruct (mix g s) as [m|] eqn:E; simpl; [|done].
    destruct (fraction_unit g s m Hm HT E) as [Ht0 Ht1]. split.
    - by apply Qcmult_nonneg_nonneg.
    - rewrite <- (Qcmult_1_r x) at 2. by apply Qcmult_le_mono_nonneg_l. }
  split.
  - apply nansum_nonneg. intros v (xg & Hv & Hxg)%list_elem_of_fmap.
    destruct (Hpt xg Hxg) as [H0 _]. by rewrite <- Hv in H0.
  - apply (nansum_le_pointwise _ fst).
    intros xg Hxg. by destruct (Hpt xg Hxg).
Qed.

Lemma usage_within_imports_witness :
  ∃ a, weekly_usage_sums
         (in_week u_ts 1 (attribute (open_smart_meter home_two) grid_two)) WIND
       = Fin a ∧
       0 ≤ a ∧ a ≤ nansum (common_rows (open_smart_meter home_two) grid_two 1).*1.
Proof.
  apply (usage_within_imports home_two grid_two 1 WIND); [by_compute..|].
  intros [x g] Hxg.
  assert (g ∈ grid_two ∧ (x = num 1 ∨ x = num 2)) as [Hg Hx].
  { unfold common_rows in Hxg. apply list_elem_of_omap in Hxg as (p & Hp & Hpg).
    destruct (head (filter (λ g, DATETIME g = p.1) grid_two)) as [g'|] eqn:E;
      [|done]. injection Hpg as <- <-.
    apply head_Some_elem_of in E. apply list_elem_of_filter in E as [_ E].
    split; [done|]. apply elem_of_in_week in Hp as [Hp _].
    apply list_elem_of_lookup in Hp as [i Hi].
    destruct i as [|[|i]]; simpl in Hi; try discriminate;
      injection Hi as <-; [by left | by right]. }
  assert (g = mix_at (days 5) 1 3 ∨ g = mix_at (days 6) 2 2) as Hg'.
  { apply elem_of_cons in Hg as [?|Hg]; [by left|].
    apply list_elem_of_singleton in Hg. by right. }
  simpl. split; [|split].
  - destruct Hg' as [-> | ->]; by_compute.
  - intros s' m Hm.
    destruct Hg' as [-> | ->]; destruct s'; simpl in Hm;
      injection Hm as <-; by_compute.
  - intros x' Hx'. destruct Hx as [-> | ->]; injection Hx' as <-; by_compute.
Defined.

(** Changing the unit of the ten source columns changes no fraction. *)
Lemma source_total_scale (k : Qc) (g : grid_row) :
  source_total (scale_mix k g) = k * source_total g.
Proof.
  unfold source_total. generalize GENERATION_MIX_COLUMNS. intros l.
  induction l as [|s l IH]; [simpl; ring|].
  rewrite !fmap_cons, !nansum_cons, IH. cbn [mix scale_mix].
  destruct (mix g s); simpl; ring.
Qed.

Lemma grid_mix_row_scale (k : Qc) (g : grid_row) (s : source) :
  0 < k → grid_mix_row (scale_mix k g) s = grid_mix_row g s.
Proof.
  intros Hk. unfold grid_mix_row. rewrite source_total_scale.
  assert (k ≠ 0) as Hk0 by (intros ->; by apply (irreflexivity Qclt 0)).
  cbn [mix scale_mix]. destruct (mix g s) as [m|]; [|done].
  cbn [fmap option_fmap option_map of_cell]. unfold fdiv.
  destruct (decide (source_total g = 0)) as [E|NE].
  - rewrite E, Qcmult_0_r, decide_True by done.
    destruct (decide (m = 0)) as [->|Hm].
    + by rewrite Qcmult_0_r, decide_True.
    + rewrite decide_False.
      2:{ intros [?|?]%Qcmult_integral; done. }
      unfold inf_of_sign. destruct (decide (0 < m)) as [Hp|Hn].
      * rewrite decide_True; [done|]. by apply Qcmult_pos_pos.
      * rewrite decide_False; [done|]. intros Hkm. apply Hn.
        apply (Qcmult_lt_mono_pos_l _ _ k Hk). by rewrite Qcmult_0_r.
  - rewrite decide_False.
    2:{ intros [?|?]%Qcmult_integral; done. }
    f_equal. field. by split.
Qed.

Lemma attributed_to_scale (k : Qc) (grid : list grid_row) (s : source)
    (p : Z * option Qc) :
  0 < k → attributed_to (scale_mix k <$> grid) s p = attributed_to grid s p.
Proof.
  intros Hk. unfold attributed_to.
  assert (head (filter (λ g, DATETIME g = p.1) (scale_mix k <$> grid)) =
          scale_mix k <$> head (filter (λ g, DATETIME g = p.1) grid)) as ->.
  { induction grid as [|g grid IH]; [done|].
    rewrite fmap_cons, !filter_cons. cbn [DATETIME scale_mix].
    destruct (decide (DATETIME g = p.1)); [done | apply IH]. }
  destruct (head (filter (λ g, DATETIME g = p.1) grid)) as [g|]; [|done].
  cbn [fmap option_fmap option_map]. by rewrite grid_mix_row_scale.
Qed.

Lemma seqZ_ext (m1 n1 m2 n2 : Z) :
  (∀ k, k ∈ seqZ m1 n1 ↔ k ∈ seqZ m2 n2) → seqZ m1 n1 = seqZ m2 n2.
Proof.
  intros H.
  assert (∀ k, (m1 ≤ k < m1 + n1)%Z ↔ (m2 ≤ k < m2 + n2)%Z) as H'.
  { intros k. by rewrite <- !elem_of_seqZ. }
  destruct (decide (0 < n1)%Z) as [H1|H1], (decide (0 < n2)%Z) as [H2|H2].
  - pose proof (proj1 (H' m1)). pose proof (proj2 (H' m2)).
    pose proof (proj1 (H' (m1 + n1 - 1)%Z)). pose proof (proj2 (H' (m2 + n2 - 1)%Z)).
    assert (m1 = m2 ∧ n1 = n2) as [-> ->] by lia. done.
  - pose proof (proj1 (H' m1)). lia.
  - pose proof (proj2 (H' m2)). lia.
  - by rewrite !seqZ_nil by lia.
Qed.

(** Two lists of rows with the same timestamps, in whatever order, give
    weekly tables with the same weeks. *)
Lemma resample_W_related {A1 A2 B1 B2 : Type} (R : B1 → B2 → Prop)
    (index1 : A1 → Z) (index2 : A2 → Z)
    (agg1 : list A1 → B1) (agg2 : list A2 → B2)
    (rows1 : list A1) (rows2 : list A2) :
  index1 <$> rows1 ≡ₚ index2 <$> rows2 →
  (∀ w, R (agg1 (in_week index1 w rows1)) (agg2 (in_week index2 w rows2))) →
  Forall2 (λ a b, a.1 = b.1 ∧ R a.2 b.2)
          (resample_W index1 agg1 rows1) (resample_W index2 agg2 rows2).
Proof.
  intros Hidx HR.
  destruct (resample_W_weeks index1 agg1 rows1) as (m1 & n1 & -> & H1).
  destruct (resample_W_weeks index2 agg2 rows2) as (m2 & n2 & -> & H2).
  assert (seqZ m1 n1 = seqZ m2 n2) as ->.
  { apply seqZ_ext. intros k. rewrite H1, H2.
    rewrite <- (spanned_fmap index1 id), <- (spanned_fmap index2 id).
    unfold spanned. by setoid_rewrite Hidx. }
  apply Forall2_fmap, Forall_Forall2_diag, Forall_forall.
  intros w _. split; [done | apply HR].
Qed.

(** The labels of [df] after the loop. *)
Lemma attribute_labels (df : list (Z * option Qc)) (grid : list grid_row) :
  NoDup df.*1 →
  u_ts <$> attribute df grid = if decide (df = []) then DATETIME <$> grid else df.*1.
Proof.
  intros Hnd. case_decide as E.
  - rewrite E. apply attribute_nil.
  - by apply attribute_index.
Qed.

(** X13.  The unit of the ten source columns of the grid file does not
    matter: with all of them multiplied by the same positive number, the
    usage table is the same, week by week and source by source. *)
Theorem usage_unit_free (smart_meter : series cell) (grid : list grid_row)
    (k : Qc) :
  NoDup smart_meter.*1 → 0 < k →
  Forall2 (λ a b, a.1 = b.1 ∧ ∀ s, a.2 s = b.2 s)
          (calculate_home_source_usage smart_meter (scale_mix k <$> grid))
          (calculate_home_source_usage smart_meter grid).
Proof.
  intros Hh Hk.
  assert (NoDup (open_smart_meter smart_meter).*1) as Hdf
    by by rewrite open_smart_meter_index.
  unfold calculate_home_source_usage, open_grid.
  apply (resample_W_related (λ u u' : source → fval, ∀ s, u s = u' s)).
  - rewrite !attribute_labels by done.
    case_decide; [by rewrite <- list_fmap_compose | done].
  - intros w s. rewrite !weekly_usage_attributed by done. f_equal.
    apply list_fmap_ext. intros _ p _. by apply attributed_to_scale.
Qed.

Lemma usage_unit_free_witness :
  Forall2 (λ a b : Z * (source → fval), a.1 = b.1 ∧ ∀ s, a.2 s = b.2 s)
          (calculate_home_source_usage home_two (scale_mix (Qc_of_Z 100) <$> grid_two))
          (calculate_home_source_usage home_two grid_two).
Proof. apply usage_unit_free; by_compute. Defined.

End usage_whole.

(** ** The whole period, and the order of the grid file *)

Section whole_period.
Local Open Scope Qc_scope.




(** With distinct timestamps, the rows of the grid file are found by their
    timestamp wherever they are in the file. *)
Lemma filter_label_Permutation (grid grid' : list grid_row) (t : Z) :
  NoDup (DATETIME <$> grid) → grid ≡ₚ grid' →
  filter (λ g, DATETIME g = t) grid = filter (λ g, DATETIME g = t) grid'.
Proof.
  intros Hnd Hp.
  pose proof (filter_label_unique grid t Hnd) as Hlen.
  assert (filter (λ g, DATETIME g = t) grid ≡ₚ filter (λ g, DATETIME g = t) grid')
    as Hf by by rewrite Hp.
  destruct (filter (λ g, DATETIME g = t) grid) as [|g [|g' l]].
  - by apply Permutation_nil_l in Hf.
  - by apply Permutation_singleton_l in Hf.
  - by destruct (decide (t ∈ DATETIME <$> grid)).
Qed.

Lemma join_inner_Permutation (df : list (Z * option Qc)) (grid grid' : list grid_row) :
  NoDup (DATETIME <$> grid) → grid ≡ₚ grid' →
  join_inner df grid = join_inner df grid'.
Proof.
  intros Hnd Hp. induction df as [|p df IH]; [done|].
  by rewrite !join_inner_cons, IH, (filter_label_Permutation grid grid').
Qed.

(** X15.  With distinct timestamps in the grid file, the order of its rows
    does not matter: [carbon_mix] gives the same weekly table, averages
    and printed lines, and [calculate_home_source_usage] the same table,
    week by week and source by source. *)
Theorem grid_order_free (smart_meter : series cell) (grid grid' : list grid_row) :
  NoDup smart_meter.*1 → NoDup (DATETIME <$> grid) → grid ≡ₚ grid' →
  carbon_mix smart_meter grid = carbon_mix smart_meter grid' ∧
  Forall2 (λ a b, a.1 = b.1 ∧ ∀ s, a.2 s = b.2 s)
          (calculate_home_source_usage smart_meter grid)
          (calculate_home_source_usage smart_meter grid').
Proof.
  intros Hh Hnd Hp. split.
  - unfold carbon_mix, joined, open_grid.
    by rewrite (join_inner_Permutation _ grid grid').
  - assert (NoDup (open_smart_meter smart_meter).*1) as Hdf
      by by rewrite open_smart_meter_index.
    unfold calculate_home_source_usage, open_grid.
    apply (resample_W_related (λ u u' : source → fval, ∀ s, u s = u' s)).
    + rewrite !attribute_labels by done. case_decide; [by rewrite Hp | done].
    + intros w s. rewrite !weekly_usage_attributed by done. f_equal.
      apply list_fmap_ext. intros _ p _. unfold attributed_to.
      by rewrite (filter_label_Permutation grid grid').
Qed.

Lemma grid_order_free_witness :
  carbon_mix home_two grid_two = carbon_mix home_two grid_two_reversed.
Proof.
  apply (grid_order_free home_two grid_two grid_two_reversed);
    [by_compute | by_compute |].
  apply perm_swap.
Defined.

End whole_period.
